(** * Manifest loading and instance resolution of edu-jslab

    A shallow embedding of [loadManifest] and [resolveInstances]
    (src/lib/manifest-loader.js) and the properties of the two functions.

    Conventions of the embedding.
    - A manifest is parsed JSON, so the data is the type [value] below.
      [VObj] lists the own properties of an object in the order in which the
      runtime enumerates them ([Object.entries], [for..in]); an array is the
      list of its elements.  [VUndefined] is the result of reading an absent
      property; it never occurs inside parsed JSON.
    - Numbers are integers ([Z]).  The only arithmetic of the program is the
      loop counter of a role expansion, which is exact for the safe integers.
    - A string is the sequence of its code units, taken below 256 ([string]).
    - A thrown exception aborts the whole call, so a function that can throw
      returns an [outcome]; the partly filled map is lost with the call.
    - The [Map] under construction is an association list in insertion order.
      Each instance object is referenced from exactly one key, so updating the
      object in place is replacing the entry at its position. *)

From Stdlib Require Import List String Ascii ZArith Bool Lia PeanoNat FinFun.
From Stdlib Require Import DecimalString DecimalNat DecimalZ.
Import ListNotations.
Open Scope string_scope.
Open Scope list_scope.

Set Warnings "-register-all".

(** ** Values of the runtime *)

Inductive value : Type :=
| VUndefined
| VNull
| VBool (b : bool)
| VNum (n : Z)
| VStr (s : string)
| VArr (elements : list value)
| VObj (properties : list (string * value)).

(** ** Outcomes: a call returns or throws *)

Inductive error : Type :=
| TypeError                 (* raised by the runtime *)
| SystemError (code : string) (* raised by the file system *)
| SyntaxError (message : string) (* raised by [JSON.parse] *)
| Error (message : string).  (* [new Error(message)] *)

Inductive outcome (A : Type) : Type :=
| Returns (a : A)
| Throws (e : error).

Arguments Returns {A} a.
Arguments Throws {A} e.

Definition bind {A B : Type} (m : outcome A) (k : A -> outcome B) : outcome B :=
  match m with
  | Returns a => k a
  | Throws e => Throws e
  end.

Notation "x <- m ;; k" := (bind m (fun x => k))
  (at level 61, m at next level, right associativity).

Definition returns {A : Type} (m : outcome A) : Prop := exists a, m = Returns a.

(** ** Primitive operations of the language *)

(** ToBoolean. *)
Definition truthy (v : value) : bool :=
  match v with
  | VUndefined | VNull => false
  | VBool b => b
  | VNum n => negb (Z.eqb n 0)
  | VStr s => negb (String.eqb s "")
  | VArr _ | VObj _ => true
  end.

(** [a || b]. *)
Definition orElse (a b : value) : value := if truthy a then a else b.

Definition isNullish (v : value) : bool :=
  match v with
  | VUndefined | VNull => true
  | _ => false
  end.

Definition Array_isArray (v : value) : bool :=
  match v with
  | VArr _ => true
  | _ => false
  end.

Definition isString (v : value) : bool :=
  match v with
  | VStr _ => true
  | _ => false
  end.

(** Decimal numerals, as template literals and [join] print integers. *)
Definition decimal (i : nat) : string := NilEmpty.string_of_uint (Nat.to_uint i).

Definition decimalZ (n : Z) : string := NilEmpty.string_of_int (Z.to_int n).

Fixpoint lookup {A : Type} (k : string) (o : list (string * A)) : option A :=
  match o with
  | [] => None
  | (k', v) :: rest => if String.eqb k' k then Some v else lookup k rest
  end.

(** The element of an array at the index written [k], when [k] is the
    canonical numeral of a position of the array. *)
Fixpoint atIndex {A : Type} (k : string) (i : nat) (l : list A) : option A :=
  match l with
  | [] => None
  | x :: rest => if String.eqb k (decimal i) then Some x else atIndex k (S i) rest
  end.

Fixpoint characters (s : string) : list value :=
  match s with
  | EmptyString => []
  | String c rest => VStr (String c EmptyString) :: characters rest
  end.

Definition indexed (k : string) (l : list value) : value :=
  if String.eqb k "length" then VNum (Z.of_nat (List.length l))
  else match atIndex k 0 l with
       | Some x => x
       | None => VUndefined
       end.

(** [v[k]] for a receiver that is not null or undefined.  Properties that are
    only inherited from the built-in prototypes are functions, which parsed
    JSON cannot hold; none of them is named by a key the program reads by
    name, and as a role count a function makes no iteration of the loop, the
    same as the absent count read here. *)
Definition get (v : value) (k : string) : value :=
  match v with
  | VObj o => match lookup k o with
              | Some x => x
              | None => VUndefined
              end
  | VArr l => indexed k l
  | VStr s => indexed k (characters s)
  | _ => VUndefined
  end.

(** [v.k]: reading a property of null or undefined throws. *)
Definition getProp (v : value) (k : string) : outcome value :=
  if isNullish v then Throws TypeError else Returns (get v k).

(** [Object.entries(v)]. *)
Fixpoint enumerate (i : nat) (l : list value) : list (string * value) :=
  match l with
  | [] => []
  | x :: rest => (decimal i, x) :: enumerate (S i) rest
  end.

Definition Object_entries (v : value) : outcome (list (string * value)) :=
  match v with
  | VUndefined | VNull => Throws TypeError
  | VObj o => Returns o
  | VArr l => Returns (enumerate 0 l)
  | VStr s => Returns (enumerate 0 (characters s))
  | VBool _ | VNum _ => Returns []
  end.

(** [s.includes(c)] and [s.replace(c, "")] for a one-character pattern: the
    replacement removes the first occurrence only. *)
Fixpoint includes (c : ascii) (s : string) : bool :=
  match s with
  | EmptyString => false
  | String a rest => if Ascii.eqb a c then true else includes c rest
  end.

Fixpoint removeFirst (c : ascii) (s : string) : string :=
  match s with
  | EmptyString => EmptyString
  | String a rest => if Ascii.eqb a c then rest else String a (removeFirst c rest)
  end.

Definition star : ascii := "*"%char.

(** ToString, as the conversion of an array to a number uses it. *)
Fixpoint ToString (v : value) : string :=
  match v with
  | VUndefined => "undefined"
  | VNull => "null"
  | VBool true => "true"
  | VBool false => "false"
  | VNum n => decimalZ n
  | VStr s => s
  | VArr l =>
      (fix join (l : list value) : string :=
         match l with
         | [] => ""
         | x :: rest =>
             let sx := match x with
                       | VUndefined | VNull => ""
                       | _ => ToString x
                       end in
             match rest with
             | [] => sx
             | _ :: _ => (sx ++ "," ++ join rest)%string
             end
         end) l
  | VObj _ => "[object Object]"
  end.

(** ** The resolved map *)

(** An object [{source, destination}]: a resource reference in [apps] and
    [files], and the content of the [datagen] slot. *)
Record ResourceRef : Type := { source : value; destination : value }.

Record Instance : Type := {
  apps : list ResourceRef;
  files : list ResourceRef;
  datagen : option ResourceRef   (* [None] is [null] *)
}.

(** [{ apps: [], files: [], datagen: null }] *)
Definition newInstance : Instance :=
  {| apps := []; files := []; datagen := None |}.

Definition Resolved : Type := list (string * Instance).

Definition Map_has (k : string) (m : Resolved) : bool :=
  match lookup k m with
  | Some _ => true
  | None => false
  end.

Fixpoint replace (k : string) (e : Instance) (m : Resolved) : Resolved :=
  match m with
  | [] => []
  | (k', e') :: rest =>
      if String.eqb k' k then (k', e) :: rest else (k', e') :: replace k e rest
  end.

(** [m.set(k, e)]: a new key goes last, a present key keeps its position. *)
Definition Map_set (k : string) (e : Instance) (m : Resolved) : Resolved :=
  if Map_has k m then replace k e m else m ++ [(k, e)].

Definition keys (m : Resolved) : list string := map fst m.

(** ** loadManifest *)

Definition quote : ascii := Ascii.ascii_of_nat 34.
Definition slash : ascii := "/"%char.
Definition newline : ascii := Ascii.ascii_of_nat 10.

(** [s.split(c)] and [lines.join(c)] for a one-character separator. *)
Fixpoint split (c : ascii) (s : string) : list string :=
  match s with
  | EmptyString => [EmptyString]
  | String a rest =>
      if Ascii.eqb a c then EmptyString :: split c rest
      else match split c rest with
           | [] => [String a EmptyString]
           | piece :: pieces => String a piece :: pieces
           end
  end.

Fixpoint join (c : ascii) (pieces : list string) : string :=
  match pieces with
  | [] => EmptyString
  | [piece] => piece
  | piece :: rest => (piece ++ String c (join c rest))%string
  end.

(** [line.substring(0, line.indexOf("//"))], or [None] when [indexOf] is -1. *)
Fixpoint beforeComment (line : string) : option string :=
  match line with
  | EmptyString => None
  | String a rest =>
      match rest with
      | String b _ =>
          if Ascii.eqb a slash && Ascii.eqb b slash then Some EmptyString
          else option_map (String a) (beforeComment rest)
      | EmptyString => None
      end
  end.

(** The number of double-quote characters of [s], as the source counts the
    matches of its one-character regular expression. *)
Fixpoint quoteCount (s : string) : nat :=
  match s with
  | EmptyString => 0
  | String a rest => (if Ascii.eqb a quote then 1 else 0) + quoteCount rest
  end.

(** The callback of [.map((line) => ...)]. *)
Definition stripComment (line : string) : string :=
  match beforeComment line with
  | Some before => if Nat.even (quoteCount before) then before else line
  | None => line
  end.

(** The class [\s] on code units below 256. *)
Definition isSpace (a : ascii) : bool :=
  let n := Ascii.nat_of_ascii a in
  (Nat.leb 9 n && Nat.leb n 13) || Nat.eqb n 32 || Nat.eqb n 160.

Definition isClosing (a : ascii) : bool :=
  Ascii.eqb a "}"%char || Ascii.eqb a "]"%char.

(** Whether [s] starts with a match of [\s*[}\]]]. *)
Fixpoint closesNext (s : string) : bool :=
  match s with
  | EmptyString => false
  | String a rest => if isSpace a then closesNext rest else isClosing a
  end.

(** [s.replace(/,(\s*[}\]])/g, "$1")] *)
Fixpoint removeTrailingCommas (s : string) : string :=
  match s with
  | EmptyString => EmptyString
  | String a rest =>
      if Ascii.eqb a ","%char && closesNext rest then removeTrailingCommas rest
      else String a (removeTrailingCommas rest)
  end.

Definition cleanContent (content : string) : string :=
  removeTrailingCommas (join newline (map stripComment (split newline content))).

(** What the call reads of the file system. *)
Record FileSystem : Type := {
  existsSync : string -> bool;
  (** the text of the file, or the code of the error raised *)
  readFileSync : string -> string + string
}.

Definition notFoundMessage (courseDir : string) : string :=
  ("manifest.json not found in " ++ courseDir)%string.

Definition invalidJsonMessage (message : string) : string :=
  ("Invalid JSON in manifest.json: " ++ message)%string.

Definition missingInstancesMessage : string :=
  ("manifest.json missing required " ++ String quote "instances"
     ++ String quote " field")%string.

Section Loader.

(** [path.join] and [JSON.parse] of the runtime; the parser returns the
    value or the message of its [SyntaxError]. *)
Variable path_join : string -> string -> string.
Variable JSON_parse : string -> value + string.

(** The [try] block. *)
Definition readManifest (fs : FileSystem) (manifestPath : string) : outcome value :=
  match readFileSync fs manifestPath with
  | inr code => Throws (SystemError code)
  | inl content =>
      match JSON_parse (cleanContent content) with
      | inr message => Throws (SyntaxError message)
      | inl manifest =>
          _ <- getProp manifest "metadata" ;;
          instances <- getProp manifest "instances" ;;
          if negb (truthy instances) then Throws (Error missingInstancesMessage)
          else Returns manifest
      end
  end.

(** The [catch] block. *)
Definition rethrow {A : Type} (m : outcome A) : outcome A :=
  match m with
  | Throws (SyntaxError message) => Throws (Error (invalidJsonMessage message))
  | _ => m
  end.

Definition loadManifest (fs : FileSystem) (courseDir : string) : outcome value :=
  let manifestPath := path_join courseDir "manifest.json" in
  if negb (existsSync fs manifestPath) then Throws (Error (notFoundMessage courseDir))
  else rethrow (readManifest fs manifestPath).

End Loader.

(** ** What the cleaning of a manifest text keeps *)

(** Whether [s] holds two slashes in a row, and whether it holds a comma
    that only white space separates from a closing bracket. *)
Fixpoint hasDoubleSlash (s : string) : bool :=
  match s with
  | EmptyString => false
  | String a rest =>
      match rest with
      | EmptyString => false
      | String b _ => (Ascii.eqb a slash && Ascii.eqb b slash) || hasDoubleSlash rest
      end
  end.

Fixpoint hasTrailingComma (s : string) : bool :=
  match s with
  | EmptyString => false
  | String a rest =>
      (Ascii.eqb a ","%char && closesNext rest) || hasTrailingComma rest
  end.

(** [Deleted t s]: the text [t] is [s] with some characters left out. *)
Inductive Deleted : string -> string -> Prop :=
| deleted_end : Deleted EmptyString EmptyString
| deleted_keep (c : ascii) (t s : string) :
    Deleted t s -> Deleted (String c t) (String c s)
| deleted_drop (c : ascii) (t s : string) :
    Deleted t s -> Deleted t (String c s).

Fixpoint occurrences (c : ascii) (s : string) : nat :=
  match s with
  | EmptyString => 0
  | String a rest => (if Ascii.eqb a c then 1 else 0) + occurrences c rest
  end.

(** ** updateManifestDate *)

Definition apostrophe : ascii := "'"%char.
Definition dollar : ascii := "$"%char.

Definition isQuote (a : ascii) : bool := Ascii.eqb a quote || Ascii.eqb a apostrophe.

Definition notQuote (a : ascii) : bool := negb (isQuote a).

Definition notClosingBrace (a : ascii) : bool := negb (Ascii.eqb a "}"%char).

Definition isDigit (a : ascii) : bool :=
  let n := Ascii.nat_of_ascii a in Nat.leb 48 n && Nat.leb n 57.

Definition digitValue (a : ascii) : nat := Ascii.nat_of_ascii a - 48.

(** The longest prefix of [s] whose characters satisfy [p], and the rest:
    a greedy repetition before a character that it excludes. *)
Fixpoint span (p : ascii -> bool) (s : string) : string * string :=
  match s with
  | EmptyString => (EmptyString, EmptyString)
  | String a rest =>
      if p a then let (taken, left) := span p rest in (String a taken, left)
      else (EmptyString, s)
  end.

(** [s] without the prefix [p], when [s] starts with [p]. *)
Fixpoint afterPrefix (p s : string) : option string :=
  match p with
  | EmptyString => Some s
  | String a p' =>
      match s with
      | EmptyString => None
      | String b s' => if Ascii.eqb a b then afterPrefix p' s' else None
      end
  end.

(** A match of [Q name Q \s* : \s* Q] at the start of [s], where [Q] is
    the class of the two quote characters: the text matched and the rest
    of [s]. *)
Definition keyAt (name : string) (s : string) : option (string * string) :=
  match s with
  | EmptyString => None
  | String q1 s1 =>
      if isQuote q1 then
        match afterPrefix name s1 with
        | Some (String q2 s2) =>
            if isQuote q2 then
              let (ws1, s3) := span isSpace s2 in
              match s3 with
              | String colon s4 =>
                  if Ascii.eqb colon ":"%char then
                    let (ws2, s5) := span isSpace s4 in
                    match s5 with
                    | String q3 s6 =>
                        if isQuote q3 then
                          Some (String q1 (name ++ String q2 (ws1 ++
                                  String ":"%char (ws2 ++ String q3 EmptyString))),
                                s6)
                        else None
                    | EmptyString => None
                    end
                  else None
              | EmptyString => None
              end
            else None
        | _ => None
        end
      else None
  end.

(** The three groups of a match at the start of [s], and the rest of [s]. *)
Definition groups : Type := (string * string * string * string)%type.

(** The regular expression of the replacement: the key [updated] as above,
    one or more characters that are no quotes, and a quote, each a group. *)
Definition updatedAt (s : string) : option groups :=
  match keyAt "updated" s with
  | None => None
  | Some (key, s1) =>
      let (value, s2) := span notQuote s1 in
      match value, s2 with
      | String _ _, String q s3 =>
          if isQuote q then Some (key, value, String q EmptyString, s3) else None
      | _, _ => None
      end
  end.

(** The regular expression of the test: the same, but the characters that
    are no quotes may be none. *)
Definition updatedFieldAt (s : string) : option groups :=
  match keyAt "updated" s with
  | None => None
  | Some (key, s1) =>
      let (value, s2) := span notQuote s1 in
      match s2 with
      | String q s3 =>
          if isQuote q then Some (key, value, String q EmptyString, s3) else None
      | EmptyString => None
      end
  end.

(** The regular expression of the field [ga]: the key as above with its
    value, possibly empty, and the closing quote as the first group, an
    optional comma as the second, white space as the third. *)
Definition gaAt (s : string) : option groups :=
  match keyAt "ga" s with
  | None => None
  | Some (key, s1) =>
      let (value, s2) := span notQuote s1 in
      match s2 with
      | String q s3 =>
          if isQuote q then
            let (comma, s4) :=
              match s3 with
              | String c s4 =>
                  if Ascii.eqb c ","%char then (String c EmptyString, s4)
                  else (EmptyString, s3)
              | EmptyString => (EmptyString, s3)
              end in
            let (ws, s5) := span isSpace s4 in
            Some ((key ++ value ++ String q EmptyString)%string, comma, ws, s5)
          else None
      | EmptyString => None
      end
  end.

Definition metadataKey : string := String quote ("metadata" ++ String quote EmptyString).

(** The regular expression of the metadata object: the key [metadata] in
    double quotes, a colon, an opening brace and the characters up to the
    next closing brace as the first group, white space as the second and
    the closing brace as the third; the test before it matches at the same
    places.  The first group is greedy and takes the white space, so the
    second group is empty. *)
Definition metadataAt (s : string) : option groups :=
  match afterPrefix metadataKey s with
  | None => None
  | Some s1 =>
      let (ws1, s2) := span isSpace s1 in
      match s2 with
      | String colon s3 =>
          if Ascii.eqb colon ":"%char then
            let (ws2, s4) := span isSpace s3 in
            match s4 with
            | String open s5 =>
                if Ascii.eqb open "{"%char then
                  let (body, s6) := span notClosingBrace s5 in
                  match s6 with
                  | String close s7 =>
                      Some ((metadataKey ++ ws1 ++ String ":"%char
                               (ws2 ++ String "{"%char body))%string,
                            EmptyString, String close EmptyString, s7)
                  | EmptyString => None
                  end
                else None
            | EmptyString => None
            end
          else None
      | EmptyString => None
      end
  end.

(** The leftmost match in [s]: the text before it and the match. *)
Fixpoint search (matchAt : string -> option groups) (s : string)
  : option (string * groups) :=
  match matchAt s with
  | Some m => Some (EmptyString, m)
  | None =>
      match s with
      | EmptyString => None
      | String a rest =>
          match search matchAt rest with
          | Some (before, m) => Some (String a before, m)
          | None => None
          end
      end
  end.

(** The substitution of a replacement template for a match with three
    groups: [$$], [$&], the text before and after the match, and [$n] or
    [$nn], where a two-digit number beyond the groups is read as one digit
    and a literal digit. *)
Section Substitution.

Variables matched before after : string.
Variable captures : list string.

Definition capture (index : nat) (ref : string) : string :=
  if Nat.leb 1 index && Nat.leb index (List.length captures)
  then nth (index - 1) captures EmptyString
  else ref.

Fixpoint substitute (template : string) : string :=
  match template with
  | EmptyString => EmptyString
  | String c rest =>
      if Ascii.eqb c dollar then
        match rest with
        | EmptyString => String c EmptyString
        | String d rest1 =>
            if Ascii.eqb d dollar then String dollar (substitute rest1)
            else if Ascii.eqb d "`"%char then (before ++ substitute rest1)%string
            else if Ascii.eqb d "&"%char then (matched ++ substitute rest1)%string
            else if Ascii.eqb d apostrophe then (after ++ substitute rest1)%string
            else if isDigit d then
              let one :=
                (capture (digitValue d) (String c (String d EmptyString))
                 ++ substitute rest1)%string in
              match rest1 with
              | EmptyString => one
              | String d2 rest2 =>
                  if isDigit d2 &&
                     Nat.leb (10 * digitValue d + digitValue d2)
                             (List.length captures)
                  then
                    (capture (10 * digitValue d + digitValue d2)
                       (String c (String d (String d2 EmptyString)))
                     ++ substitute rest2)%string
                  else one
              end
            else String c (substitute rest)
        end
      else String c (substitute rest)
  end.

End Substitution.

(** [content.replace(regex, template)] for a regex without the [g] flag. *)
Definition replaceFirst (matchAt : string -> option groups) (template content : string)
  : string :=
  match search matchAt content with
  | Some (before, (g1, g2, g3, after)) =>
      (before ++
       substitute (g1 ++ g2 ++ g3) before after [g1; g2; g3] template ++
       after)%string
  | None => content
  end.

(** [,\n    "updated": "<date>"], the text of the field that is added. *)
Definition addedField (date : string) : string :=
  ("," ++ String newline ("    " ++ String quote ("updated" ++ String quote
     (": " ++ String quote (date ++ String quote EmptyString)))))%string.

(** The text that the call writes, for the text that it read. *)
Definition updatedContent (content dateToUse : string) : string :=
  match search updatedFieldAt content with
  | Some _ =>
      replaceFirst updatedAt ("$1" ++ dateToUse ++ "$3") content
  | None =>
      match search gaAt content with
      | Some _ =>
          replaceFirst gaAt ("$1" ++ addedField dateToUse ++ "$3") content
      | None =>
          match search metadataAt content with
          | Some _ =>
              replaceFirst metadataAt ("$1" ++ addedField dateToUse ++ "$2$3")
                content
          | None => content
          end
      end
  end.

Definition updateFailedMessage (message : string) : string :=
  ("Failed to update manifest date: " ++ message)%string.

Section Updater.

Variable path_join : string -> string -> string.

(** [fs.writeFileSync]: the file system after the write, or the code of the
    error raised; and the message of the error of a code. *)
Variable writeFileSync : FileSystem -> string -> string -> FileSystem + string.
Variable systemMessage : string -> string.

(** [customDate || new Date().toISOString().split("T")[0]], [today] being
    the date of the call. *)
Definition dateToUse (customDate : option string) (today : string) : string :=
  match customDate with
  | Some date => if String.eqb date "" then today else date
  | None => today
  end.

Definition updateManifestDate (fs : FileSystem) (courseDir : string)
  (customDate : option string) (today : string) : outcome FileSystem :=
  let manifestPath := path_join courseDir "manifest.json" in
  if negb (existsSync fs manifestPath) then Throws (Error (notFoundMessage courseDir))
  else
    match readFileSync fs manifestPath with
    | inr code => Throws (Error (updateFailedMessage (systemMessage code)))
    | inl content =>
        match writeFileSync fs manifestPath
                (updatedContent content (dateToUse customDate today)) with
        | inl fs' => Returns fs'
        | inr code => Throws (Error (updateFailedMessage (systemMessage code)))
        end
    end.

End Updater.

(** ** Texts to state what the update does *)

(** Whether [s] holds the text [p] somewhere. *)
Fixpoint includesText (p s : string) : bool :=
  match afterPrefix p s with
  | Some _ => true
  | None =>
      match s with
      | EmptyString => false
      | String _ rest => includesText p rest
      end
  end.

Fixpoint allSatisfy (p : ascii -> bool) (s : string) : bool :=
  match s with
  | EmptyString => true
  | String a rest => p a && allSatisfy p rest
  end.

Definition headSatisfies (p : ascii -> bool) (s : string) : bool :=
  match s with
  | EmptyString => false
  | String a _ => p a
  end.


(** A key in quotes, a colon and the opening quote of the value, with
    white space around the colon. *)
Definition keyText (name : string) (q1 q2 : ascii) (ws1 ws2 : string) (q3 : ascii)
  : string :=
  String q1 (name ++ String q2 (ws1 ++ String ":"%char (ws2 ++ String q3 EmptyString))).

(** The conditions under which [keyText] is a key: quotes and white space
    where they belong. *)
Definition isKeyText (q1 q2 : ascii) (ws1 ws2 : string) (q3 : ascii) : bool :=
  isQuote q1 && isQuote q2 && isQuote q3 &&
  allSatisfy isSpace ws1 && allSatisfy isSpace ws2.

(** ** Sample data *)

(** A conversion under which no string reads as a number.  The samples give
    every count as a number, so the conversion is never consulted. *)
Definition noNumericStrings (s : string) : option Z := None.

Definition healthFile : ResourceRef :=
  {| source := VStr "./files/health.conf"; destination := VStr "system/local" |}.

Definition generator : ResourceRef :=
  {| source := VArr [VStr "./gen.py"]; destination := VStr "/opt/log" |}.

(** [{ "idx*": { apps: ["./apps/a"], datagen: ["TBD"] },
       "idx2": { apps: { source: ["./apps/b"], destination: "manager-apps" },
                 files: { source: "./idx2/server.conf" } },
       "*": { files: { source: ["./files/health.conf"],
                       destination: "system/local" },
              datagens: { source: ["./gen.py"], destination: "/opt/log" } } }] *)
Definition roleBlock : value :=
  VObj [("apps", VArr [VStr "./apps/a"]); ("datagen", VArr [VStr "TBD"])].

Definition exactBlock : value :=
  VObj [("apps", VObj [("source", VArr [VStr "./apps/b"]);
                       ("destination", VStr "manager-apps")]);
        ("files", VObj [("source", VStr "./idx2/server.conf")])].

Definition globalBlock : value :=
  VObj [("files", VObj [("source", VArr [VStr "./files/health.conf"]);
                        ("destination", VStr "system/local")]);
        ("datagens", VObj [("source", VArr [VStr "./gen.py"]);
                           ("destination", VStr "/opt/log")])].

Definition sampleEntries : list (string * value) :=
  [("idx*", roleBlock); ("idx2", exactBlock); ("*", globalBlock)].

Definition sampleInstances : value := VObj sampleEntries.

(** [{ instances: { idx: 2 } }] *)
Definition sampleCounts : value := VObj [("idx", VNum 2)].

Definition sampleSpec : value := VObj [("instances", sampleCounts)].

Definition sampleIdx1 : Instance :=
  {| apps := [ {| source := VStr "./apps/a"; destination := VStr "apps" |} ];
     files := [ healthFile ];
     datagen := Some generator |}.

Definition sampleIdx2 : Instance :=
  {| apps := [ {| source := VStr "./apps/a"; destination := VStr "apps" |};
               {| source := VStr "./apps/b"; destination := VStr "manager-apps" |} ];
     files := [ {| source := VStr "./idx2/server.conf";
                   destination := VStr "system/local" |};
                healthFile ];
     datagen := Some generator |}.

Definition sampleOut : Resolved := [("idx1", sampleIdx1); ("idx2", sampleIdx2)].

(** The map after the first pass of the sample. *)
Definition sampleFirst : Resolved :=
  [("idx1",
    {| apps := [ {| source := VStr "./apps/a"; destination := VStr "apps" |} ];
       files := [];
       datagen := Some {| source := VArr [VStr "TBD"]; destination := VNull |} |});
   ("idx2",
    {| apps := [ {| source := VStr "./apps/a"; destination := VStr "apps" |};
                 {| source := VStr "./apps/b"; destination := VStr "manager-apps" |} ];
       files := [ {| source := VStr "./idx2/server.conf";
                     destination := VStr "system/local" |} ];
       datagen := Some {| source := VArr [VStr "TBD"]; destination := VNull |} |})].

(** The map after the key ["idx*"] alone. *)
Definition sampleRole : Resolved :=
  [("idx1",
    {| apps := [ {| source := VStr "./apps/a"; destination := VStr "apps" |} ];
       files := [];
       datagen := Some {| source := VArr [VStr "TBD"]; destination := VNull |} |});
   ("idx2",
    {| apps := [ {| source := VStr "./apps/a"; destination := VStr "apps" |} ];
       files := [];
       datagen := Some {| source := VArr [VStr "TBD"]; destination := VNull |} |})].


(** [{ "lm1": { apps: [null] } }] *)
Definition nullGroupInstances : value :=
  VObj [("lm1", VObj [("apps", VArr [VNull])])].

(** [{ "a*b": {} }] with [{ instances: { ab: 1 } }]: a key that holds a star
    and does not end in one. *)
Definition innerStarInstances : value := VObj [("a*b", VObj [])].

Definition innerStarSpec : value := VObj [("instances", VObj [("ab", VNum 1)])].

(** [{ "uf1": { datagen: { source: "./gen.py" } } }]: the source of the
    datagen is a string, not a sequence. *)
Definition scalarDatagen : value := VObj [("source", VStr "./gen.py")].

Definition scalarDatagenInstances : value :=
  VObj [("uf1", VObj [("datagen", scalarDatagen)])].

(** A directory [course] whose manifest is the text [{"instances": 0}],
    with the parser's result on that text. *)
Definition zeroInstancesText : string :=
  ("{" ++ String quote "instances" ++ String quote ": 0}")%string.

Definition zeroInstancesManifest : value := VObj [("instances", VNum 0)].

Definition sampleJoin (dir file : string) : string := (dir ++ "/" ++ file)%string.

Definition sampleParse (text : string) : value + string :=
  if String.eqb text zeroInstancesText then inl zeroInstancesManifest
  else inr "Unexpected token".

Definition sampleFs : FileSystem :=
  {| existsSync := fun path => String.eqb path "course/manifest.json";
     readFileSync := fun path =>
       if String.eqb path "course/manifest.json" then inl zeroInstancesText
       else inr "ENOENT" |}.

(** The two kinds of error that [loadManifest] creates. *)
Definition isNotFound (courseDir : string) (e : error) : Prop :=
  e = Error (notFoundMessage courseDir).

Definition isInvalid (e : error) : Prop :=
  e = Error missingInstancesMessage \/
  exists message, e = Error (invalidJsonMessage message).



(** A directory [course] whose manifest is the text
    [{"instances": {"a": {}}}], with the parser's result on that text. *)
Definition quoted (s : string) : string := String quote (s ++ String quote EmptyString).

Definition oneInstanceText : string :=
  ("{" ++ quoted "instances" ++ ": {" ++ quoted "a" ++ ": {}}}")%string.




(** Manifest texts for the update of the date:
    [{"metadata": {"updated": "2024-01-01"}}] and the same with the new date,
    [{"metadata": {"ga": "2024", "name": "x"}}] and what the update makes of
    it, [{"metadata": {"name": "x"}}] and what the update makes of it, and
    [{"updated": ""}]. *)
Definition metadataOpening : string := ("{" ++ quoted "metadata" ++ ": {")%string.

Definition datedText (date : string) : string :=
  (metadataOpening ++ quoted "updated" ++ ": " ++ quoted date ++ "}}")%string.





Definition emptyDateText : string :=
  ("{" ++ quoted "updated" ++ ": " ++ quoted "" ++ "}")%string.

(** ** resolveInstances *)

Section Resolver.

(** The runtime's conversion of a string to a number (its numeric-literal
    grammar); [None] is NaN.  The development holds for every such
    conversion. *)
Variable StringToNumber : string -> option Z.

(** ToNumber, as [i <= count] applies it to the count. *)
Definition ToNumber (v : value) : option Z :=
  match v with
  | VUndefined => None
  | VNull => Some 0%Z
  | VBool b => Some (if b then 1 else 0)%Z
  | VNum n => Some n
  | VStr s => StringToNumber s
  | VArr _ => StringToNumber (ToString v)
  | VObj _ => None
  end.

(** [existing.<field>.push(...refs)] *)
Definition pushApps (refs : list ResourceRef) (existing : Instance) : Instance :=
  {| apps := apps existing ++ refs;
     files := files existing;
     datagen := datagen existing |}.

Definition pushFiles (refs : list ResourceRef) (existing : Instance) : Instance :=
  {| apps := apps existing;
     files := files existing ++ refs;
     datagen := datagen existing |}.

(** [existing.datagen = d] *)
Definition setDatagen (d : ResourceRef) (existing : Instance) : Instance :=
  {| apps := apps existing;
     files := files existing;
     datagen := Some d |}.

(** [src.map((app) => ({ source: app, destination }))]: only an array has
    the method. *)
Definition mapRefs (src : value) (dest : value) : outcome (list ResourceRef) :=
  match src with
  | VArr l => Returns (map (fun app => {| source := app; destination := dest |}) l)
  | _ => Throws TypeError
  end.

(** The body of [for (const appGroup of config.apps)]. *)
Definition applyGroup (appGroup : value) (existing : Instance) : outcome Instance :=
  src <- getProp appGroup "source" ;;
  if truthy src then
    let dest := orElse (get appGroup "destination") (VStr "apps") in
    refs <- mapRefs src dest ;;
    Returns (pushApps refs existing)
  else Returns existing.

Fixpoint applyGroups (groups : list value) (existing : Instance) : outcome Instance :=
  match groups with
  | [] => Returns existing
  | appGroup :: rest =>
      existing' <- applyGroup appGroup existing ;;
      applyGroups rest existing'
  end.

(** The statement [if (config.apps) { ... }], [a] being [config.apps]. *)
Definition applyApps (a : value) (existing : Instance) : outcome Instance :=
  if truthy a then
    match a with
    | VArr l =>
        match l with
        | VStr _ :: _ =>
            Returns (pushApps
              (map (fun app => {| source := app; destination := VStr "apps" |}) l)
              existing)
        | _ => applyGroups l existing
        end
    | _ =>
        let src := get a "source" in
        if truthy src then
          let dest := orElse (get a "destination") (VStr "apps") in
          refs <- mapRefs src dest ;;
          Returns (pushApps refs existing)
        else Returns existing
    end
  else Returns existing.

(** The statement [if (config.files) { ... }], [f] being [config.files]. *)
Definition applyFiles (f : value) (existing : Instance) : Instance :=
  if truthy f then
    let dest := orElse (get f "destination") (VStr "system/local") in
    match get f "source" with
    | VArr l =>
        pushFiles (map (fun file => {| source := file; destination := dest |}) l)
                  existing
    | VStr s => pushFiles [ {| source := VStr s; destination := dest |} ] existing
    | _ => existing
    end
  else existing.

(** The statement [if (datagenConfig) { ... }]. *)
Definition applyDatagen (datagenConfig : value) (existing : Instance) : Instance :=
  if truthy datagenConfig then
    match datagenConfig with
    | VArr _ =>
        setDatagen {| source := datagenConfig; destination := VNull |} existing
    | _ =>
        let src := get datagenConfig "source" in
        if truthy src then
          setDatagen {| source := src;
                        destination := get datagenConfig "destination" |} existing
        else existing
    end
  else existing.

(** The block that the source repeats for a role wildcard, for an exact key
    and for the global wildcard: apps, then files, then datagen, on the
    instance [existing]. *)
Definition applyConfig (config : value) (existing : Instance) : outcome Instance :=
  a <- getProp config "apps" ;;
  e1 <- applyApps a existing ;;
  let e2 := applyFiles (get config "files") e1 in
  let datagenConfig := orElse (get config "datagens") (get config "datagen") in
  Returns (applyDatagen datagenConfig e2).

(** [if (!resolved.has(name)) resolved.set(name, {...});
     const existing = resolved.get(name);] followed by the block. *)
Definition visit (name : string) (config : value) (resolved : Resolved)
  : outcome Resolved :=
  let resolved1 :=
    if Map_has name resolved then resolved
    else Map_set name newInstance resolved in
  match lookup name resolved1 with
  | Some existing =>
      existing' <- applyConfig config existing ;;
      Returns (replace name existing' resolved1)
  | None => Throws TypeError
  end.

(** The number of iterations of [for (let i = 1; i <= count; i++)] under
    [if (count)]. *)
Definition iterations (count : value) : nat :=
  if truthy count then
    match ToNumber count with
    | Some n => Z.to_nat n
    | None => 0
    end
  else 0.

(** The loop, [n] iterations from counter [i]. *)
Fixpoint expand (prefix : string) (config : value) (n i : nat)
  (resolved : Resolved) : outcome Resolved :=
  match n with
  | 0 => Returns resolved
  | S n' =>
      resolved' <- visit (prefix ++ decimal i)%string config resolved ;;
      expand prefix config n' (S i) resolved'
  end.

(** One iteration of the first pass. *)
Definition resolvePattern (instanceCounts : value) (pattern : string)
  (config : value) (resolved : Resolved) : outcome Resolved :=
  if String.eqb pattern "*" then Returns resolved
  else if includes star pattern then
    let prefix := removeFirst star pattern in
    let count := get instanceCounts prefix in
    expand prefix config (iterations count) 1 resolved
  else visit pattern config resolved.

Fixpoint firstPass (instanceCounts : value) (entries : list (string * value))
  (resolved : Resolved) : outcome Resolved :=
  match entries with
  | [] => Returns resolved
  | (pattern, config) :: rest =>
      resolved' <- resolvePattern instanceCounts pattern config resolved ;;
      firstPass instanceCounts rest resolved'
  end.

(** The second pass: the block, for every entry of the map, in place. *)
Fixpoint secondPass (globalConfig : value) (resolved : Resolved)
  : outcome Resolved :=
  match resolved with
  | [] => Returns []
  | (instanceName, existing) :: rest =>
      existing' <- applyConfig globalConfig existing ;;
      rest' <- secondPass globalConfig rest ;;
      Returns ((instanceName, existing') :: rest')
  end.

(** [spec?.instances || {}] *)
Definition instanceCountsOf (spec : value) : value :=
  orElse (if isNullish spec then VUndefined else get spec "instances") (VObj []).

Definition resolveInstances (instances spec : value) : outcome Resolved :=
  let instanceCounts := instanceCountsOf spec in
  entries <- Object_entries instances ;;
  resolved <- firstPass instanceCounts entries [] ;;
  if truthy (get instances "*") then secondPass (get instances "*") resolved
  else Returns resolved.

(** ** What a block contributes

    The block of the source is described by three functions of the
    declaration alone: the references it appends to [apps], those it appends
    to [files], and the object it stores in the [datagen] slot, if any. *)

Definition groupRefs (appGroup : value) : outcome (list ResourceRef) :=
  src <- getProp appGroup "source" ;;
  if truthy src then mapRefs src (orElse (get appGroup "destination") (VStr "apps"))
  else Returns [].

Fixpoint groupsRefs (groups : list value) : outcome (list ResourceRef) :=
  match groups with
  | [] => Returns []
  | appGroup :: rest =>
      refs <- groupRefs appGroup ;;
      more <- groupsRefs rest ;;
      Returns (refs ++ more)
  end.

Definition legacyRef (app : value) : ResourceRef :=
  {| source := app; destination := VStr "apps" |}.

(** The apps of a declaration, shape by shape. *)
Definition appsByShape (a : value) : outcome (list ResourceRef) :=
  if truthy a then
    match a with
    | VArr l =>
        match l with
        | VStr _ :: _ => Returns (map legacyRef l)
        | _ => groupsRefs l
        end
    | _ =>
        if truthy (get a "source")
        then mapRefs (get a "source") (orElse (get a "destination") (VStr "apps"))
        else Returns []
    end
  else Returns [].

(** The references that [config.apps] appends, read off the block run on a
    new instance. *)
Definition appsRefs (a : value) : outcome (list ResourceRef) :=
  e <- applyApps a newInstance ;; Returns (apps e).

Definition filesRefs (f : value) : list ResourceRef :=
  files (applyFiles f newInstance).

Definition datagenOf (datagenConfig : value) : option ResourceRef :=
  datagen (applyDatagen datagenConfig newInstance).

(** The three contributions of a block; a block whose [apps] throw
    contributes no list, as the call has no result then. *)
Definition blockApps (config : value) : list ResourceRef :=
  match (a <- getProp config "apps" ;; appsRefs a) with
  | Returns refs => refs
  | Throws _ => []
  end.

Definition blockFiles (config : value) : list ResourceRef :=
  filesRefs (get config "files").

Definition blockDatagen (config : value) : option ResourceRef :=
  datagenOf (orElse (get config "datagens") (get config "datagen")).

(** The slot after the blocks [configs], applied in order from [slot]. *)
Definition lastDatagen (configs : list value) (slot : option ResourceRef)
  : option ResourceRef :=
  fold_left (fun acc config =>
               match blockDatagen config with
               | Some d => Some d
               | None => acc
               end) configs slot.

(** The blocks [configs] applied in order to one instance. *)
Fixpoint applyAll (configs : list value) (existing : Instance) : outcome Instance :=
  match configs with
  | [] => Returns existing
  | config :: rest =>
      existing' <- applyConfig config existing ;;
      applyAll rest existing'
  end.

(** The instance that a visit of [name] starts from. *)
Definition initial (resolved : Resolved) (name : string) : Instance :=
  match lookup name resolved with
  | Some existing => existing
  | None => newInstance
  end.

(** The block visited for each name of a list, in order. *)
Fixpoint visitAll (names : list string) (config : value) (resolved : Resolved)
  : outcome Resolved :=
  match names with
  | [] => Returns resolved
  | name :: rest =>
      resolved' <- visit name config resolved ;;
      visitAll rest config resolved'
  end.

(** ** Which identities a pattern key names *)

(** [<prefix><i>] for [n] consecutive [i] from [i0]. *)
Definition numbered (prefix : string) (i0 n : nat) : list string :=
  map (fun i => (prefix ++ decimal i)%string) (seq i0 n).

Definition isRoleWildcard (pattern : string) : bool :=
  negb (String.eqb pattern "*") && includes star pattern.

Definition isExact (pattern : string) : bool :=
  negb (String.eqb pattern "*") && negb (includes star pattern).

(** The role of a role wildcard, as the source derives it. *)
Definition roleOf (pattern : string) : string := removeFirst star pattern.


(** [s.endsWith(c)] for one character. *)
Fixpoint endsWith (c : ascii) (s : string) : bool :=
  match s with
  | EmptyString => false
  | String a EmptyString => Ascii.eqb a c
  | String _ rest => endsWith c rest
  end.

(** The identities that the first pass visits for a key. *)
Definition targets (instanceCounts : value) (pattern : string) : list string :=
  if String.eqb pattern "*" then []
  else if includes star pattern then
    numbered (roleOf pattern) 1 (iterations (get instanceCounts (roleOf pattern)))
  else [pattern].

Definition matchesId (instanceCounts : value) (id : string) (pattern : string)
  : bool :=
  existsb (String.eqb id) (targets instanceCounts pattern).

(** The blocks of the keys that name [id], in the order of the entries. *)
Definition matching (instanceCounts : value) (entries : list (string * value))
  (id : string) : list value :=
  map snd (filter (fun entry => matchesId instanceCounts id (fst entry)) entries).

(** The global block, when the second pass runs. *)
Definition globalBlocks (instances : value) : list value :=
  if truthy (get instances "*") then [get instances "*"] else [].

(** The map [resolved] holds, for every identity, the result of the blocks
    [blocks id] applied in order to a new instance, and nothing for an
    identity without blocks. *)
Definition Described (blocks : string -> list value) (resolved : Resolved) : Prop :=
  forall id,
    (blocks id = [] /\ lookup id resolved = None) \/
    (blocks id <> [] /\
     exists e, lookup id resolved = Some e /\
               applyAll (blocks id) newInstance = Returns e).

(** ** The two shapes of a list of apps *)

(** [["./a", "./b"]] and [{source: ["./a", "./b"], destination: "apps"}]. *)
Definition legacyApps (ss : list string) : value := VArr (map VStr ss).

Definition objectApps (ss : list string) : value :=
  VObj [("source", VArr (map VStr ss)); ("destination", VStr "apps")].

(** Two blocks that are the same, or differ only in the shape in which
    their [apps] property gives one list of strings. *)
Inductive shapeVariant : value -> value -> Prop :=
| variant_same (config : value) : shapeVariant config config
| variant_apps (ss : list string) (before after : list (string * value)) :
    shapeVariant (VObj (before ++ ("apps", legacyApps ss) :: after))
                 (VObj (before ++ ("apps", objectApps ss) :: after)).

(** Two pattern maps with the same keys in the same order and such blocks. *)
Definition variantEntries (entries1 entries2 : list (string * value)) : Prop :=
  Forall2 (fun entry1 entry2 =>
             fst entry1 = fst entry2 /\ shapeVariant (snd entry1) (snd entry2))
          entries1 entries2.

(** Two blocks that the resolver cannot tell apart. *)
Definition sameBlock (config1 config2 : value) : Prop :=
  truthy config1 = truthy config2 /\
  forall e, applyConfig config1 e = applyConfig config2 e.

(** ** Shapes on which the block does not throw *)





(** ** Shapes of a datagen declaration *)

Definition isStringSequence (v : value) : bool :=
  match v with
  | VArr l => forallb isString l
  | _ => false
  end.

Definition isObject (v : value) : bool :=
  match v with
  | VObj _ => true
  | _ => false
  end.

(** A sequence of strings, or an object whose source is one. *)
Definition declaredDatagenShape (v : value) : bool :=
  isStringSequence v || (isObject v && isStringSequence (get v "source")).

(** The shapes that the source stores. *)
Definition storedDatagenShape (v : value) : bool :=
  truthy v && (Array_isArray v || truthy (get v "source")).

(** ** The order of the result *)

(** The names of [names] that are not in [seen], each once, in the order in
    which they first occur. *)
Fixpoint firstOccurrences (names seen : list string) : list string :=
  match names with
  | [] => []
  | id :: rest =>
      if existsb (String.eqb id) seen then firstOccurrences rest seen
      else id :: firstOccurrences rest (id :: seen)
  end.

(** The identities that the keys of the entries name, entry after entry. *)
Definition named (instanceCounts : value) (entries : list (string * value))
  : list string :=
  flat_map (fun entry => targets instanceCounts (fst entry)) entries.

(** ** Basic facts *)

Lemma decimal_inj (i j : nat) : decimal i = decimal j -> i = j.
Proof.
  unfold decimal. intros H.
  apply (f_equal NilEmpty.uint_of_string) in H.
  rewrite !NilEmpty.usu in H.
  inversion H as [H'].
  now apply DecimalNat.Unsigned.to_uint_inj.
Qed.

Lemma append_cancel_l (p a b : string) : (p ++ a)%string = (p ++ b)%string -> a = b.
Proof.
  induction p as [ | c p IH]; simpl; intros H; [ exact H | ].
  inversion H. auto.
Qed.


Lemma numbered_NoDup (prefix : string) (i0 n : nat) : NoDup (numbered prefix i0 n).
Proof.
  unfold numbered. apply Injective_map_NoDup.
  - intros i j H. apply decimal_inj. eapply append_cancel_l. exact H.
  - apply seq_NoDup.
Qed.

Lemma targets_NoDup (instanceCounts : value) (pattern : string) :
  NoDup (targets instanceCounts pattern).
Proof.
  unfold targets. destruct (String.eqb pattern "*"); [ constructor | ].
  destruct (includes star pattern); [ apply numbered_NoDup | ].
  constructor; [ intros [] | constructor ].
Qed.

(** *** The association list *)

Lemma lookup_app (A : Type) (k : string) (m m' : list (string * A)) :
  lookup k (m ++ m') =
  match lookup k m with
  | Some x => Some x
  | None => lookup k m'
  end.
Proof.
  induction m as [ | [k' x] m IH]; simpl; [ reflexivity | ].
  destruct (String.eqb k' k); auto.
Qed.

Lemma lookup_None_keys (k : string) (m : Resolved) :
  lookup k m = None <-> ~ In k (keys m).
Proof.
  induction m as [ | [k' x] m IH]; simpl.
  - split; auto.
  - destruct (String.eqb_spec k' k) as [-> | Hne].
    + split; [ discriminate | intros H; exfalso; apply H; auto ].
    + rewrite IH. split; [ intros H [E | I]; auto | intros H I; apply H; auto ].
Qed.

Lemma lookup_Some_keys (k : string) (m : Resolved) :
  (exists e, lookup k m = Some e) <-> In k (keys m).
Proof.
  destruct (lookup k m) eqn:E.
  - split; [ intros _ | eauto ].
    destruct (in_dec string_dec k (keys m)) as [I | N]; [ exact I | ].
    apply lookup_None_keys in N. congruence.
  - split; [ intros [e H]; discriminate | ].
    intros I. apply lookup_None_keys in E. contradiction.
Qed.

Lemma Map_has_true (k : string) (m : Resolved) :
  Map_has k m = true <-> In k (keys m).
Proof.
  unfold Map_has. rewrite <- lookup_Some_keys.
  destruct (lookup k m); split; eauto; try discriminate.
  intros [e H]; discriminate.
Qed.

Lemma keys_replace (k : string) (e : Instance) (m : Resolved) :
  keys (replace k e m) = keys m.
Proof.
  induction m as [ | [k' x] m IH]; simpl; [ reflexivity | ].
  destruct (String.eqb k' k); simpl; [ reflexivity | ].
  f_equal. exact IH.
Qed.

Lemma lookup_replace_same (k : string) (e x : Instance) (m : Resolved) :
  lookup k m = Some x -> lookup k (replace k e m) = Some e.
Proof.
  induction m as [ | [k' y] m IH]; simpl; [ discriminate | ].
  destruct (String.eqb k' k) eqn:E; simpl; rewrite E; auto.
Qed.

Lemma lookup_replace_other (k k' : string) (e : Instance) (m : Resolved) :
  k <> k' -> lookup k' (replace k e m) = lookup k' m.
Proof.
  intros Hne. induction m as [ | [k0 y] m IH]; simpl; [ reflexivity | ].
  destruct (String.eqb_spec k0 k) as [-> | N]; simpl.
  - destruct (String.eqb_spec k k'); [ contradiction | reflexivity ].
  - destruct (String.eqb k0 k'); auto.
Qed.

(** *** The block *)

Lemma pushApps_nil (e : Instance) : pushApps [] e = e.
Proof. destruct e. unfold pushApps. simpl. now rewrite app_nil_r. Qed.

Lemma pushApps_pushApps (r1 r2 : list ResourceRef) (e : Instance) :
  pushApps r2 (pushApps r1 e) = pushApps (r1 ++ r2) e.
Proof. unfold pushApps. simpl. now rewrite app_assoc. Qed.

Lemma pushFiles_nil (e : Instance) : pushFiles [] e = e.
Proof. destruct e. unfold pushFiles. simpl. now rewrite app_nil_r. Qed.

Lemma applyGroup_push (appGroup : value) (e : Instance) :
  applyGroup appGroup e = refs <- groupRefs appGroup ;; Returns (pushApps refs e).
Proof.
  unfold applyGroup, groupRefs.
  destruct (getProp appGroup "source") as [src | err]; simpl; [ | reflexivity ].
  destruct (truthy src); simpl; [ reflexivity | now rewrite pushApps_nil ].
Qed.

Lemma applyGroups_push (groups : list value) (e : Instance) :
  applyGroups groups e = refs <- groupsRefs groups ;; Returns (pushApps refs e).
Proof.
  revert e. induction groups as [ | g groups IH]; intros e; simpl.
  - now rewrite pushApps_nil.
  - rewrite applyGroup_push.
    destruct (groupRefs g) as [refs | err]; simpl; [ | reflexivity ].
    rewrite IH.
    destruct (groupsRefs groups) as [more | err]; simpl; [ | reflexivity ].
    now rewrite pushApps_pushApps.
Qed.

Lemma applyApps_byShape (a : value) (e : Instance) :
  applyApps a e = refs <- appsByShape a ;; Returns (pushApps refs e).
Proof.
  unfold applyApps, appsByShape.
  destruct (truthy a); simpl; [ | now rewrite pushApps_nil ].
  assert (G : forall l, applyGroups l e =
                        refs <- groupsRefs l ;; Returns (pushApps refs e))
    by (intros; apply applyGroups_push).
  assert (S : (if truthy (get a "source")
               then refs <- mapRefs (get a "source")
                              (orElse (get a "destination") (VStr "apps")) ;;
                    Returns (pushApps refs e)
               else Returns e) =
              refs <- (if truthy (get a "source")
                       then mapRefs (get a "source")
                              (orElse (get a "destination") (VStr "apps"))
                       else Returns []) ;; Returns (pushApps refs e)).
  { destruct (truthy (get a "source")); simpl;
      [ reflexivity | now rewrite pushApps_nil ]. }
  destruct a as [ | | b | n | s | l | o]; try exact S.
  destruct l as [ | x l]; [ apply G | ].
  destruct x; try apply G. reflexivity.
Qed.

Lemma appsRefs_byShape (a : value) : appsRefs a = appsByShape a.
Proof.
  unfold appsRefs. rewrite applyApps_byShape.
  destruct (appsByShape a); reflexivity.
Qed.

Lemma applyApps_push (a : value) (e : Instance) :
  applyApps a e = refs <- appsRefs a ;; Returns (pushApps refs e).
Proof. rewrite appsRefs_byShape. apply applyApps_byShape. Qed.

Lemma applyFiles_push (f : value) (e : Instance) :
  applyFiles f e = pushFiles (filesRefs f) e.
Proof.
  unfold filesRefs, applyFiles.
  destruct (truthy f); [ | now rewrite pushFiles_nil ].
  destruct (get f "source"); simpl; try (now rewrite pushFiles_nil); reflexivity.
Qed.

Lemma applyDatagen_slot (datagenConfig : value) (e : Instance) :
  applyDatagen datagenConfig e =
  match datagenOf datagenConfig with
  | Some d => setDatagen d e
  | None => e
  end.
Proof.
  unfold datagenOf, applyDatagen.
  destruct (truthy datagenConfig); [ | reflexivity ].
  destruct datagenConfig; simpl; try reflexivity;
    match goal with
    | |- context [truthy ?v] => destruct (truthy v); reflexivity
    end.
Qed.

Lemma applyConfig_fields (config : value) (e e' : Instance) :
  applyConfig config e = Returns e' ->
  apps e' = apps e ++ blockApps config /\
  files e' = files e ++ blockFiles config /\
  datagen e' = match blockDatagen config with
               | Some d => Some d
               | None => datagen e
               end.
Proof.
  unfold applyConfig, blockApps, blockFiles, blockDatagen. intros H.
  destruct (getProp config "apps") as [a | err]; simpl in *; [ | discriminate ].
  rewrite applyApps_push in H.
  destruct (appsRefs a) as [refs | err]; simpl in *; [ | discriminate ].
  inversion H; subst; clear H.
  rewrite applyDatagen_slot, applyFiles_push.
  destruct (datagenOf _); simpl; auto.
Qed.

(** *** When the block throws *)


Lemma returns_Throws (A : Type) (e : error) : ~ returns (@Throws A e).
Proof. intros [a H]. discriminate. Qed.






(** *** One visit, and a list of visits *)

Lemma replace_fresh (k : string) (e x : Instance) (m : Resolved) :
  lookup k m = None -> replace k e (m ++ [(k, x)]) = m ++ [(k, e)].
Proof.
  induction m as [ | [k' y] m IH]; simpl; intros H.
  - now rewrite String.eqb_refl.
  - destruct (String.eqb k' k); [ discriminate | ]. now rewrite IH.
Qed.

Lemma lookup_Map_set (k k' : string) (e : Instance) (m : Resolved) :
  lookup k' (Map_set k e m) = if String.eqb k k' then Some e else lookup k' m.
Proof.
  unfold Map_set, Map_has. destruct (lookup k m) eqn:E.
  - destruct (String.eqb_spec k k') as [<- | N].
    + eapply lookup_replace_same; eauto.
    + now apply lookup_replace_other.
  - rewrite lookup_app. simpl.
    destruct (String.eqb_spec k k') as [<- | N].
    + now rewrite E.
    + now destruct (lookup k' m).
Qed.

Lemma keys_Map_set (k : string) (e : Instance) (m : Resolved) :
  keys (Map_set k e m) = if Map_has k m then keys m else keys m ++ [k].
Proof.
  unfold Map_set. destruct (Map_has k m).
  - apply keys_replace.
  - unfold keys. now rewrite map_app.
Qed.

Lemma visit_set (name : string) (config : value) (resolved : Resolved) :
  visit name config resolved =
  e <- applyConfig config (initial resolved name) ;;
  Returns (Map_set name e resolved).
Proof.
  unfold visit, initial, Map_set, Map_has.
  destruct (lookup name resolved) eqn:E.
  - rewrite E. reflexivity.
  - rewrite lookup_app. rewrite E. simpl. rewrite String.eqb_refl.
    destruct (applyConfig config newInstance); simpl; [ | reflexivity ].
    now rewrite replace_fresh.
Qed.

Lemma visitAll_app (l1 l2 : list string) (config : value) (resolved : Resolved) :
  visitAll (l1 ++ l2) config resolved =
  r <- visitAll l1 config resolved ;; visitAll l2 config r.
Proof.
  revert resolved. induction l1 as [ | n l1 IH]; intros resolved; simpl.
  - reflexivity.
  - destruct (visit n config resolved); simpl; auto.
Qed.

Lemma expand_visitAll (prefix : string) (config : value) (n i : nat)
  (resolved : Resolved) :
  expand prefix config n i resolved = visitAll (numbered prefix i n) config resolved.
Proof.
  revert i resolved. induction n as [ | n IH]; intros i resolved; simpl.
  - reflexivity.
  - destruct (visit _ config resolved); simpl; [ | reflexivity ].
    apply IH.
Qed.

Lemma resolvePattern_visitAll (instanceCounts : value) (pattern : string)
  (config : value) (resolved : Resolved) :
  resolvePattern instanceCounts pattern config resolved =
  visitAll (targets instanceCounts pattern) config resolved.
Proof.
  unfold resolvePattern, targets, roleOf.
  destruct (String.eqb pattern "*"); [ reflexivity | ].
  destruct (includes star pattern).
  - apply expand_visitAll.
  - simpl. now destruct (visit pattern config resolved).
Qed.

Lemma visitAll_effect (names : list string) (config : value)
  (resolved resolved' : Resolved) :
  NoDup names ->
  visitAll names config resolved = Returns resolved' ->
  (forall id, In id names ->
     exists e, applyConfig config (initial resolved id) = Returns e /\
               lookup id resolved' = Some e) /\
  (forall id, ~ In id names -> lookup id resolved' = lookup id resolved) /\
  keys resolved' =
    keys resolved ++ filter (fun id => negb (Map_has id resolved)) names.
Proof.
  revert resolved. induction names as [ | n names IH]; intros resolved ND H.
  - simpl in H. inversion H; subst. repeat split.
    + intros id [].
    + simpl. now rewrite app_nil_r.
  - simpl in H. rewrite visit_set in H.
    destruct (applyConfig config (initial resolved n)) as [e | err] eqn:A;
      simpl in H; [ | discriminate ].
    inversion ND as [ | ? ? Hn ND']; subst.
    destruct (IH _ ND' H) as (I1 & I2 & I3).
    assert (L : forall id, id <> n ->
                lookup id (Map_set n e resolved) = lookup id resolved).
    { intros id N. rewrite lookup_Map_set.
      destruct (String.eqb_spec n id); congruence. }
    repeat split.
    + intros id [<- | I].
      * exists e. split; [ exact A | ].
        rewrite (I2 n Hn), lookup_Map_set, String.eqb_refl. reflexivity.
      * destruct (I1 id I) as (e' & A' & L').
        exists e'. split; [ | exact L' ].
        unfold initial in *. rewrite L in A'; [ exact A' | ].
        intros ->. contradiction.
    + intros id N. rewrite I2 by (intros I; apply N; right; exact I).
      apply L. intros ->. apply N. left. reflexivity.
    + rewrite I3, keys_Map_set. simpl.
      assert (F : filter (fun id => negb (Map_has id (Map_set n e resolved))) names =
                  filter (fun id => negb (Map_has id resolved)) names).
      { apply filter_ext_in. intros id I. unfold Map_has. rewrite L; [ reflexivity | ].
        intros ->. contradiction. }
      rewrite F.
      destruct (Map_has n resolved); simpl; [ reflexivity | ].
      now rewrite <- app_assoc.
Qed.

(** *** The two passes *)

Lemma matchesId_In (instanceCounts : value) (id pattern : string) :
  matchesId instanceCounts id pattern = true <->
  In id (targets instanceCounts pattern).
Proof.
  unfold matchesId. rewrite existsb_exists. split.
  - intros (x & I & E). apply String.eqb_eq in E. now subst.
  - intros I. exists id. split; [ exact I | apply String.eqb_refl ].
Qed.

Lemma matching_app (instanceCounts : value) (l1 l2 : list (string * value))
  (id : string) :
  matching instanceCounts (l1 ++ l2) id =
  matching instanceCounts l1 id ++ matching instanceCounts l2 id.
Proof. unfold matching. now rewrite filter_app, map_app. Qed.


Lemma applyAll_app (l1 l2 : list value) (e : Instance) :
  applyAll (l1 ++ l2) e = e' <- applyAll l1 e ;; applyAll l2 e'.
Proof.
  revert e. induction l1 as [ | c l1 IH]; intros e; simpl.
  - reflexivity.
  - destruct (applyConfig c e); simpl; auto.
Qed.

Lemma matching_single (instanceCounts : value) (pattern : string)
  (config : value) (id : string) :
  matching instanceCounts [(pattern, config)] id =
  if matchesId instanceCounts id pattern then [config] else [].
Proof.
  unfold matching. simpl. now destruct (matchesId instanceCounts id pattern).
Qed.

Lemma applyAll_snoc (l : list value) (c : value) (e : Instance) :
  applyAll (l ++ [c]) e = e' <- applyAll l e ;; applyConfig c e'.
Proof.
  rewrite applyAll_app. destruct (applyAll l e) as [e1 | err]; simpl; auto.
  now destruct (applyConfig c e1).
Qed.

Lemma resolvePattern_described (instanceCounts : value)
  (processed : list (string * value)) (pattern : string) (config : value)
  (resolved resolved' : Resolved) :
  resolvePattern instanceCounts pattern config resolved = Returns resolved' ->
  Described (matching instanceCounts processed) resolved ->
  Described (matching instanceCounts (processed ++ [(pattern, config)])) resolved'.
Proof.
  rewrite resolvePattern_visitAll. intros H D id.
  destruct (@visitAll_effect _ _ _ _ (targets_NoDup instanceCounts pattern) H)
    as (V1 & V2 & _).
  rewrite matching_app, matching_single.
  destruct (matchesId instanceCounts id pattern) eqn:M.
  - right. split; [ intros E; apply app_eq_nil in E; destruct E; discriminate | ].
    apply matchesId_In in M. destruct (V1 id M) as (e & A & L).
    exists e. split; [ exact L | ].
    rewrite applyAll_snoc. unfold initial in A.
    destruct (D id) as [(B & N) | (B & e0 & L0 & A0)].
    + rewrite B. rewrite N in A. exact A.
    + rewrite A0. rewrite L0 in A. exact A.
  - rewrite !app_nil_r.
    assert (N : ~ In id (targets instanceCounts pattern)).
    { intros I. apply matchesId_In in I. congruence. }
    rewrite (V2 id N). apply D.
Qed.

Lemma firstPass_described (instanceCounts : value)
  (rest processed : list (string * value)) (resolved resolved' : Resolved) :
  firstPass instanceCounts rest resolved = Returns resolved' ->
  Described (matching instanceCounts processed) resolved ->
  Described (matching instanceCounts (processed ++ rest)) resolved'.
Proof.
  revert processed resolved.
  induction rest as [ | [p c] rest IH]; intros processed resolved H D.
  - simpl in H. inversion H; subst. now rewrite app_nil_r.
  - simpl in H.
    destruct (resolvePattern instanceCounts p c resolved) as [r1 | err] eqn:R;
      simpl in H; [ | discriminate ].
    replace (processed ++ (p, c) :: rest) with ((processed ++ [(p, c)]) ++ rest)
      by (now rewrite <- app_assoc).
    apply IH with (resolved := r1); [ exact H | ].
    eapply resolvePattern_described; eauto.
Qed.

Lemma Described_nil (instanceCounts : value) :
  Described (matching instanceCounts []) [].
Proof. intros id. left. split; reflexivity. Qed.

Lemma secondPass_effect (globalConfig : value) (resolved resolved' : Resolved) :
  secondPass globalConfig resolved = Returns resolved' ->
  keys resolved' = keys resolved /\
  forall id,
    match lookup id resolved with
    | Some e => exists e', applyConfig globalConfig e = Returns e' /\
                           lookup id resolved' = Some e'
    | None => lookup id resolved' = None
    end.
Proof.
  revert resolved'. induction resolved as [ | [k e] resolved IH];
    intros resolved' H; simpl in H.
  - inversion H; subst. split; [ reflexivity | intros id; reflexivity ].
  - destruct (applyConfig globalConfig e) as [e' | err] eqn:A;
      simpl in H; [ | discriminate ].
    destruct (secondPass globalConfig resolved) as [rest' | err] eqn:S;
      simpl in H; [ | discriminate ].
    inversion H; subst. destruct (IH _ eq_refl) as (K & L).
    split; [ simpl; now rewrite K | ].
    intros id. simpl. destruct (String.eqb k id); [ eauto | apply L ].
Qed.

(** The result of the whole call, identity by identity. *)
Lemma resolveInstances_described (instances spec : value)
  (entries : list (string * value)) (out : Resolved) :
  Object_entries instances = Returns entries ->
  resolveInstances instances spec = Returns out ->
  Described (fun id =>
               match matching (instanceCountsOf spec) entries id with
               | [] => []
               | blocks => blocks ++ globalBlocks instances
               end) out.
Proof.
  unfold resolveInstances. intros OE H. rewrite OE in H. simpl in H.
  destruct (firstPass (instanceCountsOf spec) entries []) as [r | err] eqn:F;
    simpl in H; [ | discriminate ].
  pose proof (@firstPass_described _ entries [] _ _ F
                (Described_nil _)) as D.
  simpl in D. unfold globalBlocks.
  destruct (truthy (get instances "*")).
  - destruct (@secondPass_effect _ _ _ H) as (_ & L).
    intros id. specialize (L id). destruct (D id) as [(B & N) | (B & e & Le & A)].
    + left. rewrite B. split; [ reflexivity | ]. now rewrite N in L.
    + right. rewrite Le in L. destruct L as (e' & A' & L').
      destruct (matching (instanceCountsOf spec) entries id) eqn:M;
        [ congruence | ].
      split; [ discriminate | ].
      exists e'. split; [ exact L' | ].
      rewrite applyAll_snoc. rewrite A. exact A'.
  - inversion H; subst. intros id.
    destruct (D id) as [(B & N) | (B & e & Le & A)].
    + left. rewrite B. auto.
    + right. destruct (matching (instanceCountsOf spec) entries id) eqn:M;
        [ congruence | ].
      rewrite app_nil_r. split; [ discriminate | eauto ].
Qed.

Lemma applyAll_fields (configs : list value) (e e' : Instance) :
  applyAll configs e = Returns e' ->
  apps e' = apps e ++ List.concat (map blockApps configs) /\
  files e' = files e ++ List.concat (map blockFiles configs) /\
  datagen e' = lastDatagen configs (datagen e).
Proof.
  revert e. induction configs as [ | c configs IH]; intros e H; simpl in H.
  - inversion H; subst. simpl. now rewrite !app_nil_r.
  - destruct (applyConfig c e) as [e1 | err] eqn:A; simpl in H; [ | discriminate ].
    destruct (@applyConfig_fields _ _ _ A) as (A1 & A2 & A3).
    destruct (IH _ H) as (I1 & I2 & I3).
    simpl. rewrite I1, I2, I3, A1, A2, A3, <- !app_assoc.
    unfold lastDatagen. simpl. auto.
Qed.

(** *** Keys, counts and totality *)



Lemma resolvePattern_keys (instanceCounts : value) (pattern : string)
  (config : value) (resolved resolved' : Resolved) :
  resolvePattern instanceCounts pattern config resolved = Returns resolved' ->
  keys resolved' =
    keys resolved ++
    filter (fun id => negb (Map_has id resolved)) (targets instanceCounts pattern).
Proof.
  rewrite resolvePattern_visitAll. intros H.
  now destruct (@visitAll_effect _ _ _ _ (targets_NoDup instanceCounts pattern) H)
    as (_ & _ & K).
Qed.









(** ** Properties of resolveInstances *)





(** C5.  The datagen slot of every identity of the result is the last
    declaration that a block stored, the blocks naming the identity taken in
    the order of the entries and the global block last; so a global block
    that stores a declaration decides the slot of every identity. *)
Theorem datagen_last_write_wins (instances spec : value)
  (entries : list (string * value)) (out : Resolved) (id : string)
  (inst : Instance) :
  Object_entries instances = Returns entries ->
  resolveInstances instances spec = Returns out ->
  lookup id out = Some inst ->
  datagen inst =
    lastDatagen (matching (instanceCountsOf spec) entries id
                 ++ globalBlocks instances) None /\
  (forall d, truthy (get instances "*") = true ->
             blockDatagen (get instances "*") = Some d ->
             datagen inst = Some d).
Proof.
  intros OE H L.
  destruct (resolveInstances_described _ _ _ _ OE H id) as [(_ & N) | (B & e & L' & A)];
    [ congruence | ].
  rewrite L in L'. inversion L'; subst e.
  destruct (matching (instanceCountsOf spec) entries id) as [ | c cs];
    [ congruence | ].
  destruct (@applyAll_fields _ _ _ A) as (_ & _ & A3).
  simpl datagen in A3. split; [ exact A3 | ].
  intros d T G. rewrite A3. unfold globalBlocks. rewrite T.
  unfold lastDatagen. rewrite fold_left_app. simpl. now rewrite G.
Qed.

(** *** Blocks that act alike *)

Lemma visitAll_ext (names : list string) (c1 c2 : value) (resolved : Resolved) :
  sameBlock c1 c2 -> visitAll names c1 resolved = visitAll names c2 resolved.
Proof.
  intros [_ S]. revert resolved.
  induction names as [ | n names IH]; intros resolved; simpl; [ reflexivity | ].
  rewrite !visit_set, S.
  destruct (applyConfig c2 (initial resolved n)); simpl; auto.
Qed.

Lemma firstPass_ext (instanceCounts : value) (l1 l2 : list (string * value))
  (resolved : Resolved) :
  Forall2 (fun a b => fst a = fst b /\ sameBlock (snd a) (snd b)) l1 l2 ->
  firstPass instanceCounts l1 resolved = firstPass instanceCounts l2 resolved.
Proof.
  intros F. revert resolved.
  induction F as [ | [p1 c1] [p2 c2] l1 l2 [P S] F IH]; intros resolved; simpl;
    [ reflexivity | ].
  simpl in P, S. subst p2.
  rewrite !resolvePattern_visitAll, (visitAll_ext _ c1 c2 _ S).
  destruct (visitAll _ c2 resolved); simpl; auto.
Qed.

Lemma secondPass_ext (c1 c2 : value) (resolved : Resolved) :
  sameBlock c1 c2 -> secondPass c1 resolved = secondPass c2 resolved.
Proof.
  intros [_ S]. induction resolved as [ | [k e] resolved IH]; simpl;
    [ reflexivity | ].
  now rewrite S, IH.
Qed.

Lemma sameBlock_refl (c : value) : sameBlock c c.
Proof. split; reflexivity. Qed.

Lemma lookup_ext (k : string) (l1 l2 : list (string * value)) :
  Forall2 (fun a b => fst a = fst b /\ sameBlock (snd a) (snd b)) l1 l2 ->
  match lookup k l1, lookup k l2 with
  | Some c1, Some c2 => sameBlock c1 c2
  | None, None => True
  | _, _ => False
  end.
Proof.
  induction 1 as [ | [p1 c1] [p2 c2] l1 l2 [P S] F IH]; simpl; [ exact I | ].
  simpl in P, S. subst p2. destruct (String.eqb p1 k); [ exact S | exact IH ].
Qed.

Lemma resolveInstances_ext (l1 l2 : list (string * value)) (spec : value) :
  Forall2 (fun a b => fst a = fst b /\ sameBlock (snd a) (snd b)) l1 l2 ->
  resolveInstances (VObj l1) spec = resolveInstances (VObj l2) spec.
Proof.
  intros F. unfold resolveInstances. simpl.
  rewrite (firstPass_ext _ l1 l2 [] F).
  destruct (firstPass (instanceCountsOf spec) l2 []) as [r | err]; simpl;
    [ | reflexivity ].
  pose proof (lookup_ext "*" l1 l2 F) as L.
  destruct (lookup "*" l1) as [c1 | ], (lookup "*" l2) as [c2 | ];
    try contradiction; [ | reflexivity ].
  destruct L as [T S]. rewrite T.
  destruct (truthy c2) eqn:T2; [ | reflexivity ].
  apply secondPass_ext. split; [ congruence | exact S ].
Qed.

Lemma appsByShape_legacy (ss : list string) :
  appsByShape (legacyApps ss) = Returns (map legacyRef (map VStr ss)).
Proof. destruct ss; reflexivity. Qed.

Lemma appsByShape_object (ss : list string) :
  appsByShape (objectApps ss) = Returns (map legacyRef (map VStr ss)).
Proof. reflexivity. Qed.

Lemma lookup_middle (k k' : string) (a : value) (before after : list (string * value)) :
  lookup k' (before ++ (k, a) :: after) =
  match lookup k' before with
  | Some x => Some x
  | None => if String.eqb k k' then Some a else lookup k' after
  end.
Proof. now rewrite lookup_app. Qed.

Lemma shapeVariant_sameBlock (c1 c2 : value) : shapeVariant c1 c2 -> sameBlock c1 c2.
Proof.
  intros [c | ss before after]; [ apply sameBlock_refl | ].
  split; [ reflexivity | ].
  intros e. unfold applyConfig, getProp. simpl.
  rewrite !lookup_middle. simpl.
  destruct (lookup "apps" before); [ reflexivity | ].
  rewrite !applyApps_byShape, appsByShape_legacy, appsByShape_object.
  reflexivity.
Qed.

(** C7.  A list of strings given directly as the [apps] declaration and the
    same list given as [{source, destination: "apps"}] contribute the same
    references, one per string with destination ["apps"], in order; two
    pattern maps that differ only in this shape resolve to the same
    outcome. *)
Theorem legacy_apps_equivalence (ss : list string) :
  appsRefs (legacyApps ss) =
    Returns (map (fun s => {| source := VStr s; destination := VStr "apps" |}) ss) /\
  appsRefs (objectApps ss) = appsRefs (legacyApps ss) /\
  (forall entries1 entries2 spec,
      variantEntries entries1 entries2 ->
      resolveInstances (VObj entries1) spec = resolveInstances (VObj entries2) spec).
Proof.
  split; [ | split ].
  - rewrite appsRefs_byShape, appsByShape_legacy. now rewrite map_map.
  - now rewrite !appsRefs_byShape, appsByShape_legacy, appsByShape_object.
  - intros entries1 entries2 spec V. apply resolveInstances_ext.
    unfold variantEntries in V.
    induction V as [ | a b l1 l2 [P S] V IH]; constructor; [ | exact IH ].
    split; [ exact P | now apply shapeVariant_sameBlock ].
Qed.

(** C6 (amended).  A key is the global wildcard, an exact key or a role
    wildcard.  The key ["*"] is skipped by the first pass.  A key without
    any star is exact: the pass creates or reuses the one instance of that
    name and touches no other.  Every other key, which holds a star at any
    position, is a role wildcard whose role is the key without its first
    star: the pass visits [<role>1], [<role>2], ... up to the count.  A key
    that ends in a star holds one. *)
Theorem pattern_kinds (instanceCounts : value) (pattern : string)
  (config : value) (resolved resolved' : Resolved) :
  resolvePattern instanceCounts pattern config resolved = Returns resolved' ->
  (pattern = "*" -> resolved' = resolved) /\
  (isExact pattern = true ->
     keys resolved' =
       (if Map_has pattern resolved then keys resolved
        else keys resolved ++ [pattern]) /\
     forall id, id <> pattern -> lookup id resolved' = lookup id resolved) /\
  (isRoleWildcard pattern = true ->
     keys resolved' =
       keys resolved ++
       filter (fun id => negb (Map_has id resolved))
              (numbered (roleOf pattern) 1
                 (iterations (get instanceCounts (roleOf pattern))))) /\
  (pattern = "*" \/ isExact pattern = true \/ isRoleWildcard pattern = true) /\
  (isExact pattern = true <-> pattern <> "*" /\ includes star pattern = false) /\
  (isRoleWildcard pattern = true <->
     pattern <> "*" /\ includes star pattern = true) /\
  (endsWith star pattern = true -> includes star pattern = true).
Proof.
  intros H.
  pose proof (resolvePattern_keys _ _ _ _ _ H) as K.
  assert (V := H). rewrite resolvePattern_visitAll in V.
  destruct (visitAll_effect _ _ _ _ (targets_NoDup instanceCounts pattern) V)
    as (_ & V2 & _).
  unfold isExact, isRoleWildcard. unfold targets in K, V2.
  destruct (String.eqb_spec pattern "*") as [-> | N]; simpl.
  - unfold resolvePattern in H. simpl in H. inversion H; subst.
    repeat split; auto; try discriminate; try tauto;
      intros [Q _]; congruence.
  - destruct (includes star pattern) eqn:I; simpl.
    + repeat split; auto; try discriminate; try tauto.
      intros [_ Q]; discriminate.
    + repeat split; auto; try discriminate; try tauto.
      * rewrite K. simpl.
        destruct (Map_has pattern resolved); simpl; [ apply app_nil_r | reflexivity ].
      * intros id Hid. apply V2. intros [E | []]. congruence.
      * intros E. clear - E I. induction pattern as [ | c p IH]; [ discriminate | ].
        simpl in *. destruct (Ascii.eqb c star) eqn:C; [ discriminate | ].
        destruct p; [ unfold star in C; congruence | auto ].
Qed.

(** C8 (amended).  A block leaves the datagen slot as it is when its
    declaration ([datagens] if truthy, else [datagen]) is falsy, or is not
    an array and has no truthy [source].  Every array and every other value
    with a truthy [source] overwrites the slot, whatever the array holds and
    whatever the [source] is. *)
Theorem datagen_slot_kept_unless_stored (config : value) (e e' : Instance) :
  applyConfig config e = Returns e' ->
  (storedDatagenShape (orElse (get config "datagens") (get config "datagen")) = false ->
   datagen e' = datagen e) /\
  (storedDatagenShape (orElse (get config "datagens") (get config "datagen")) = true ->
   exists d, datagen e' = Some d /\
             blockDatagen config = Some d /\
             (Array_isArray (orElse (get config "datagens") (get config "datagen")) = true ->
              d = {| source := orElse (get config "datagens") (get config "datagen");
                     destination := VNull |}) /\
             (Array_isArray (orElse (get config "datagens") (get config "datagen")) = false ->
              d = {| source := get (orElse (get config "datagens") (get config "datagen")) "source";
                     destination := get (orElse (get config "datagens") (get config "datagen")) "destination" |})).
Proof.
  intros H. destruct (applyConfig_fields _ _ _ H) as (_ & _ & D).
  unfold blockDatagen in *.
  set (d := orElse (get config "datagens") (get config "datagen")) in *.
  rewrite D. clear D H. unfold storedDatagenShape, datagenOf, applyDatagen.
  destruct (truthy d); simpl.
  - destruct d; simpl;
      try (destruct (truthy _); simpl; split; intros Q; try discriminate;
           try reflexivity; eexists; repeat split; try reflexivity;
           intros; discriminate);
      split; intros Q; try discriminate; eexists; repeat split;
        try reflexivity; intros; discriminate.
  - split; [ reflexivity | discriminate ].
Qed.

(** C10 (amended).  An empty array of apps contributes nothing.  A non-empty
    one is read by its first element alone: if that is a string, every
    element, of whatever type, becomes a reference with destination
    ["apps"]; if not, every element is read as a group, and an element other
    than null whose [source] is absent or falsy contributes nothing, the
    array giving what it gives without that element. *)
Theorem apps_array_read_by_first_element (l : list value) (e : Instance) :
  applyApps (VArr []) e = Returns e /\
  (forall x rest, l = x :: rest -> isString x = true ->
     applyApps (VArr l) e = Returns (pushApps (map legacyRef l) e)) /\
  (forall x rest, l = x :: rest -> isString x = false ->
     applyApps (VArr l) e = (refs <- groupsRefs l ;; Returns (pushApps refs e)) /\
     forall before g after,
       l = before ++ g :: after ->
       isNullish g = false -> truthy (get g "source") = false ->
       groupRefs g = Returns [] /\
       groupsRefs l = groupsRefs (before ++ after)).
Proof.
  split; [ reflexivity | split ].
  - intros x rest -> S. destruct x; try discriminate. reflexivity.
  - intros x rest E S. split.
    + rewrite E, <- applyGroups_push.
      destruct x; try discriminate; reflexivity.
    + intros before g after -> N T.
      assert (G : groupRefs g = Returns []).
      { unfold groupRefs, getProp. rewrite N. simpl. now rewrite T. }
      split; [ exact G | ].
      clear E. induction before as [ | b before IH]; simpl.
      * rewrite G. simpl. now destruct (groupsRefs after).
      * now rewrite IH.
Qed.

(** ** Further properties of resolveInstances *)

Lemma existsb_eqb_In (id : string) (l : list string) :
  existsb (String.eqb id) l = true <-> In id l.
Proof.
  rewrite existsb_exists. split.
  - intros (x & I & E). apply String.eqb_eq in E. now subst.
  - intros I. exists id. split; [ exact I | apply String.eqb_refl ].
Qed.

Lemma existsb_eqb_ext (id : string) (l1 l2 : list string) :
  (forall x, In x l1 <-> In x l2) ->
  existsb (String.eqb id) l1 = existsb (String.eqb id) l2.
Proof.
  intros H. apply eq_true_iff_eq. rewrite !existsb_eqb_In. apply H.
Qed.

Lemma firstOccurrences_ext (names seen1 seen2 : list string) :
  (forall x, In x seen1 <-> In x seen2) ->
  firstOccurrences names seen1 = firstOccurrences names seen2.
Proof.
  revert seen1 seen2. induction names as [ | id names IH]; intros s1 s2 H; simpl.
  - reflexivity.
  - rewrite (existsb_eqb_ext id s1 s2 H).
    destruct (existsb (String.eqb id) s2); [ now apply IH | ].
    f_equal. apply IH. intros x. simpl. rewrite H. tauto.
Qed.

Lemma firstOccurrences_app (front rest seen : list string) :
  NoDup front ->
  firstOccurrences (front ++ rest) seen =
  filter (fun id => negb (existsb (String.eqb id) seen)) front ++
  firstOccurrences rest (front ++ seen).
Proof.
  revert seen. induction front as [ | id front IH]; intros seen ND; simpl.
  - reflexivity.
  - inversion ND as [ | ? ? N ND']; subst.
    destruct (existsb (String.eqb id) seen) eqn:E; simpl.
    + rewrite (IH seen ND'). f_equal. apply firstOccurrences_ext.
      intros x. simpl. apply existsb_eqb_In in E. split; [ auto | ].
      intros [<- | I]; [ apply in_or_app; auto | exact I ].
    + rewrite (IH (id :: seen) ND'). f_equal. f_equal.
      * apply filter_ext_in. intros x I. simpl.
        destruct (String.eqb_spec x id) as [-> | _]; [ contradiction | reflexivity ].
      * apply firstOccurrences_ext. intros x. simpl. rewrite !in_app_iff. simpl.
        tauto.
Qed.

Lemma firstOccurrences_fresh (names seen : list string) :
  NoDup (firstOccurrences names seen) /\
  forall x, In x (firstOccurrences names seen) -> ~ In x seen.
Proof.
  revert seen. induction names as [ | id names IH]; intros seen; simpl.
  - split; [ constructor | intros x [] ].
  - destruct (existsb (String.eqb id) seen) eqn:E; [ apply IH | ].
    destruct (IH (id :: seen)) as [ND F]. split.
    + constructor; [ | exact ND ]. intros I. apply (F id I). left. reflexivity.
    + intros x [<- | I].
      * intros I. apply existsb_eqb_In in I. congruence.
      * intros I'. apply (F x I). right. exact I'.
Qed.

Lemma Map_has_existsb (id : string) (resolved : Resolved) :
  Map_has id resolved = existsb (String.eqb id) (keys resolved).
Proof.
  apply eq_true_iff_eq. now rewrite Map_has_true, existsb_eqb_In.
Qed.

Lemma firstPass_keys (instanceCounts : value) (entries : list (string * value))
  (resolved resolved' : Resolved) :
  firstPass instanceCounts entries resolved = Returns resolved' ->
  keys resolved' =
    keys resolved ++ firstOccurrences (named instanceCounts entries) (keys resolved).
Proof.
  revert resolved. induction entries as [ | [p c] entries IH]; intros resolved H;
    simpl in H.
  - inversion H; subst. simpl. now rewrite app_nil_r.
  - destruct (resolvePattern instanceCounts p c resolved) as [r1 | err] eqn:R;
      simpl in H; [ | discriminate ].
    pose proof (resolvePattern_keys _ _ _ _ _ R) as K.
    rewrite (IH _ H), K. unfold named. simpl. fold (named instanceCounts entries).
    rewrite firstOccurrences_app by apply targets_NoDup.
    rewrite <- app_assoc. f_equal. f_equal.
    + apply filter_ext. intros id. now rewrite Map_has_existsb.
    + apply firstOccurrences_ext. intros x. rewrite !in_app_iff, filter_In.
      split.
      * intros [I | [I _]]; auto.
      * intros [I | I]; [ | auto ].
        destruct (Map_has x resolved) eqn:M.
        -- left. now apply Map_has_true.
        -- right. split; [ exact I | reflexivity ].
Qed.

(** X1.  The keys of the result are the identities that the entries name,
    each once, in the order in which the entries first name them; the global
    wildcard adds none and moves none. *)
Theorem result_keys_in_order_of_first_naming (instances spec : value)
  (entries : list (string * value)) (out : Resolved) :
  Object_entries instances = Returns entries ->
  resolveInstances instances spec = Returns out ->
  keys out = firstOccurrences (named (instanceCountsOf spec) entries) [] /\
  NoDup (keys out).
Proof.
  intros OE H. unfold resolveInstances in H. rewrite OE in H. simpl in H.
  destruct (firstPass (instanceCountsOf spec) entries []) as [r | err] eqn:F;
    simpl in H; [ | discriminate ].
  pose proof (firstPass_keys _ _ _ _ F) as K. simpl in K.
  assert (E : keys out = keys r).
  { destruct (truthy (get instances "*")).
    - now destruct (secondPass_effect _ _ _ H).
    - now inversion H. }
  rewrite E, K. split; [ reflexivity | apply firstOccurrences_fresh ].
Qed.





Lemma named_nil (instanceCounts : value) (entries : list (string * value)) :
  named instanceCounts entries = [] <->
  forall pattern config,
    In (pattern, config) entries -> targets instanceCounts pattern = [].
Proof.
  unfold named. induction entries as [ | [p c] entries IH]; simpl.
  - split; [ intros _ ? ? [] | reflexivity ].
  - split.
    + intros H. apply app_eq_nil in H. destruct H as [H1 H2].
      intros pattern config [E | I]; [ now inversion E; subst | ].
      eapply (proj1 IH); eauto.
    + intros H. rewrite (H p c) by auto. simpl. apply IH.
      intros pattern config I. apply (H pattern config). auto.
Qed.


Lemma firstPass_app (instanceCounts : value) (l1 l2 : list (string * value))
  (resolved : Resolved) :
  firstPass instanceCounts (l1 ++ l2) resolved =
  r <- firstPass instanceCounts l1 resolved ;; firstPass instanceCounts l2 r.
Proof.
  revert resolved. induction l1 as [ | [p c] l1 IH]; intros resolved; simpl.
  - reflexivity.
  - destruct (resolvePattern instanceCounts p c resolved); simpl; auto.
Qed.

Lemma firstPass_skip (instanceCounts : value) (before after : list (string * value))
  (pattern : string) (config : value) (resolved : Resolved) :
  targets instanceCounts pattern = [] ->
  firstPass instanceCounts (before ++ (pattern, config) :: after) resolved =
  firstPass instanceCounts (before ++ after) resolved.
Proof.
  intros T. rewrite !firstPass_app.
  destruct (firstPass instanceCounts before resolved) as [r | err]; simpl;
    [ | reflexivity ].
  rewrite resolvePattern_visitAll, T. reflexivity.
Qed.


(** X4.  The global block is applied last wherever its key stands in the
    pattern map: moving the entry to the front changes no outcome. *)
Theorem global_entry_position_is_irrelevant (before after : list (string * value))
  (globalConfig spec : value) :
  lookup "*" before = None ->
  resolveInstances (VObj (before ++ ("*", globalConfig) :: after)) spec =
  resolveInstances (VObj (("*", globalConfig) :: before ++ after)) spec.
Proof.
  intros L. unfold resolveInstances. simpl.
  rewrite (firstPass_skip _ before after "*" globalConfig [] eq_refl).
  rewrite lookup_app, L. reflexivity.
Qed.

Lemma orElse_truthy (a b : value) : truthy b = true -> truthy (orElse a b) = true.
Proof. unfold orElse. intros H. now destruct (truthy a) eqn:E. Qed.

Lemma mapRefs_destination (src dest : value) (refs : list ResourceRef) :
  mapRefs src dest = Returns refs ->
  Forall (fun ref => destination ref = dest) refs.
Proof.
  destruct src; simpl; intros H; inversion H; subst.
  apply Forall_forall. intros ref I. apply in_map_iff in I.
  destruct I as (x & <- & _). reflexivity.
Qed.

Lemma mapRefs_truthy (src a : value) (refs : list ResourceRef) :
  mapRefs src (orElse a (VStr "apps")) = Returns refs ->
  Forall (fun ref => truthy (destination ref) = true) refs.
Proof.
  intros H. apply mapRefs_destination in H.
  eapply Forall_impl; [ | exact H ]. simpl. intros ref ->.
  now apply orElse_truthy.
Qed.

Lemma groupsRefs_truthy (groups : list value) (refs : list ResourceRef) :
  groupsRefs groups = Returns refs ->
  Forall (fun ref => truthy (destination ref) = true) refs.
Proof.
  revert refs. induction groups as [ | g groups IH]; intros refs; simpl.
  - intros H. inversion H. constructor.
  - unfold groupRefs.
    destruct (getProp g "source") as [src | err]; simpl; [ | discriminate ].
    destruct (truthy src); simpl.
    + destruct (mapRefs src _) as [r1 | err] eqn:M; simpl; [ | discriminate ].
      destruct (groupsRefs groups) as [r2 | err]; simpl; [ | discriminate ].
      intros H. inversion H; subst. apply Forall_app. split.
      * eapply mapRefs_truthy; eauto.
      * now apply IH.
    + destruct (groupsRefs groups) as [r2 | err]; simpl; [ | discriminate ].
      intros H. inversion H; subst. now apply IH.
Qed.

Lemma blockApps_truthy (config : value) :
  Forall (fun ref => truthy (destination ref) = true) (blockApps config).
Proof.
  unfold blockApps.
  destruct (getProp config "apps") as [a | err]; simpl; [ | constructor ].
  rewrite appsRefs_byShape.
  destruct (appsByShape a) as [refs | err] eqn:A; [ | constructor ].
  unfold appsByShape in A. destruct (truthy a).
  - assert (S : (if truthy (get a "source")
                 then mapRefs (get a "source")
                        (orElse (get a "destination") (VStr "apps"))
                 else Returns []) = Returns refs ->
                Forall (fun ref => truthy (destination ref) = true) refs).
    { destruct (truthy (get a "source")).
      - apply mapRefs_truthy.
      - intros H. inversion H. constructor. }
    destruct a as [ | | b | n | s | l | o]; try (apply S; exact A).
    assert (L : Returns (map legacyRef l) = Returns refs ->
                Forall (fun ref => truthy (destination ref) = true) refs).
    { intros H. inversion H; subst. apply Forall_forall. intros ref I.
      apply in_map_iff in I. destruct I as (x & <- & _). reflexivity. }
    destruct l as [ | x l]; [ now apply groupsRefs_truthy with (groups := []) | ].
    destruct x; try (now apply groupsRefs_truthy in A); now apply L.
  - inversion A. constructor.
Qed.

Lemma blockFiles_truthy (config : value) :
  Forall (fun ref => truthy (destination ref) = true) (blockFiles config).
Proof.
  unfold blockFiles, filesRefs, applyFiles.
  destruct (truthy (get config "files")); [ | constructor ].
  destruct (get (get config "files") "source"); simpl; try constructor.
  - now apply orElse_truthy.
  - constructor.
  - apply Forall_forall. intros ref I. apply in_map_iff in I.
    destruct I as (x & <- & _). simpl. now apply orElse_truthy.
Qed.

Lemma blockDatagen_truthy (config : value) (d : ResourceRef) :
  blockDatagen config = Some d -> truthy (source d) = true.
Proof.
  unfold blockDatagen, datagenOf, applyDatagen.
  set (c := orElse (get config "datagens") (get config "datagen")).
  destruct (truthy c) eqn:T; [ | discriminate ].
  destruct c as [ | | b | n | s | l | o]; try discriminate T; cbv zeta;
    try (destruct (truthy (get _ "source")) eqn:S; [ | discriminate ];
         intros H; inversion H; subst; exact S).
  intros H. inversion H; subst. reflexivity.
Qed.

Lemma lastDatagen_truthy (configs : list value) (slot : option ResourceRef)
  (d : ResourceRef) :
  (forall d0, slot = Some d0 -> truthy (source d0) = true) ->
  lastDatagen configs slot = Some d -> truthy (source d) = true.
Proof.
  unfold lastDatagen. revert slot.
  induction configs as [ | c configs IH]; intros slot S; simpl.
  - apply S.
  - apply IH. destruct (blockDatagen c) eqn:B; [ | exact S ].
    intros d0 E. inversion E; subst. eapply blockDatagen_truthy; eauto.
Qed.

(** X5.  In the result every reference of [apps] and of [files] has a truthy
    destination, the default standing in for an absent or falsy one, and a
    datagen slot that is not null holds a truthy source. *)
Theorem result_destinations_and_sources_truthy (instances spec : value)
  (out : Resolved) (id : string) (inst : Instance) :
  resolveInstances instances spec = Returns out ->
  lookup id out = Some inst ->
  Forall (fun ref => truthy (destination ref) = true) (apps inst) /\
  Forall (fun ref => truthy (destination ref) = true) (files inst) /\
  (forall d, datagen inst = Some d -> truthy (source d) = true).
Proof.
  intros H L.
  destruct (Object_entries instances) as [entries | err] eqn:OE;
    [ | unfold resolveInstances in H; rewrite OE in H; discriminate ].
  destruct (resolveInstances_described _ _ _ _ OE H id)
    as [(_ & N) | (_ & e & L' & A)]; [ congruence | ].
  rewrite L in L'. inversion L'; subst e.
  destruct (applyAll_fields _ _ _ A) as (A1 & A2 & A3).
  simpl in A1, A2, A3. rewrite A1, A2.
  split; [ | split ].
  - apply Forall_concat. apply Forall_forall. intros refs I.
    apply in_map_iff in I. destruct I as (c & <- & _). apply blockApps_truthy.
  - apply Forall_concat. apply Forall_forall. intros refs I.
    apply in_map_iff in I. destruct I as (c & <- & _). apply blockFiles_truthy.
  - intros d D. rewrite A3 in D.
    eapply lastDatagen_truthy; [ | exact D ]. discriminate.
Qed.




End Resolver.

(** ** Properties of loadManifest *)

Section LoaderFacts.

Variable path_join : string -> string -> string.
Variable JSON_parse : string -> value + string.

Lemma notFound_not_invalid (courseDir : string) :
  ~ isInvalid (Error (notFoundMessage courseDir)).
Proof.
  unfold isInvalid, notFoundMessage, missingInstancesMessage, invalidJsonMessage.
  intros [H | [m H]]; simpl in H; discriminate H.
Qed.

Lemma readManifest_cases (fs : FileSystem) (manifestPath : string) :
  match readFileSync fs manifestPath with
  | inr code =>
      rethrow (readManifest JSON_parse fs manifestPath) = Throws (SystemError code)
  | inl content =>
      match JSON_parse (cleanContent content) with
      | inr message =>
          rethrow (readManifest JSON_parse fs manifestPath) =
          Throws (Error (invalidJsonMessage message))
      | inl manifest =>
          if isNullish manifest
          then rethrow (readManifest JSON_parse fs manifestPath) = Throws TypeError
          else if truthy (get manifest "instances")
          then rethrow (readManifest JSON_parse fs manifestPath) = Returns manifest
          else rethrow (readManifest JSON_parse fs manifestPath) =
               Throws (Error missingInstancesMessage)
      end
  end.
Proof.
  unfold readManifest.
  destruct (readFileSync fs manifestPath) as [content | code]; [ | reflexivity ].
  destruct (JSON_parse (cleanContent content)) as [manifest | message];
    [ | reflexivity ].
  unfold getProp. destruct (isNullish manifest); [ reflexivity | ]. simpl.
  destruct (truthy (get manifest "instances")); reflexivity.
Qed.

(** C9 (amended).  [loadManifest] throws the not-found error exactly when
    [manifest.json] does not exist in the directory.  It throws an invalid
    error exactly when the file exists, is read, and its comment-stripped
    text fails to parse, or parses to a value other than null whose
    [instances] is absent or falsy (null, false, 0 or the empty string
    included).  It returns exactly when that value has a truthy [instances],
    and then returns the parsed manifest. *)
Theorem loadManifest_outcomes (fs : FileSystem) (courseDir : string) :
  (loadManifest path_join JSON_parse fs courseDir =
     Throws (Error (notFoundMessage courseDir)) <->
   existsSync fs (path_join courseDir "manifest.json") = false) /\
  ((exists e, loadManifest path_join JSON_parse fs courseDir = Throws e /\
              isInvalid e) <->
   existsSync fs (path_join courseDir "manifest.json") = true /\
   exists content,
     readFileSync fs (path_join courseDir "manifest.json") = inl content /\
     ((exists message, JSON_parse (cleanContent content) = inr message) \/
      (exists manifest,
          JSON_parse (cleanContent content) = inl manifest /\
          isNullish manifest = false /\
          truthy (get manifest "instances") = false))) /\
  (forall manifest,
      loadManifest path_join JSON_parse fs courseDir = Returns manifest <->
      existsSync fs (path_join courseDir "manifest.json") = true /\
      exists content,
        readFileSync fs (path_join courseDir "manifest.json") = inl content /\
        JSON_parse (cleanContent content) = inl manifest /\
        isNullish manifest = false /\
        truthy (get manifest "instances") = true).
Proof.
  unfold loadManifest.
  pose proof (readManifest_cases fs (path_join courseDir "manifest.json")) as C.
  set (p := path_join courseDir "manifest.json") in *.
  destruct (existsSync fs p) eqn:X; simpl.
  - destruct (readFileSync fs p) as [content | code] eqn:R.
    + destruct (JSON_parse (cleanContent content)) as [manifest | message] eqn:P.
      * destruct (isNullish manifest) eqn:N;
          [ | destruct (truthy (get manifest "instances")) eqn:T ];
          rewrite C; clear C.
        -- split; [ split; [ discriminate | discriminate ] | split ].
           ++ split.
              ** intros (e & E & [I | [m I]]); inversion E; subst; discriminate.
              ** intros (_ & c & Rc & [(m & Pm) | (v & Pv & Nv & _)]);
                   inversion Rc; subst; congruence.
           ++ intros v. split; [ discriminate | ].
              intros (_ & c & Rc & Pv & Nv & _). inversion Rc; subst. congruence.
        -- split; [ split; [ discriminate | discriminate ] | split ].
           ++ split.
              ** intros (e & E & _). discriminate.
              ** intros (_ & c & Rc & [(m & Pm) | (v & Pv & _ & Tv)]);
                   inversion Rc; subst; congruence.
           ++ intros v. split.
              ** intros E. inversion E; subst. split; [ reflexivity | ].
                 exists content. auto.
              ** intros (_ & c & Rc & Pv & _). inversion Rc; subst. congruence.
        -- split; [ split; [ | discriminate ] | split ].
           ++ intros E. inversion E.
           ++ split.
              ** intros _. split; [ reflexivity | ]. exists content.
                 split; [ reflexivity | ]. right. exists manifest. auto.
              ** intros _. eexists. split; [ reflexivity | ]. left. reflexivity.
           ++ intros v. split; [ discriminate | ].
              intros (_ & c & Rc & Pv & _ & Tv). inversion Rc; subst. congruence.
      * rewrite C; clear C.
        split; [ split; [ | discriminate ] | split ].
        -- intros E. inversion E.
        -- split.
           ++ intros _. split; [ reflexivity | ]. exists content.
              split; [ reflexivity | ]. left. eauto.
           ++ intros _. eexists. split; [ reflexivity | ]. right. eauto.
        -- intros v. split; [ discriminate | ].
           intros (_ & c & Rc & Pv & _). inversion Rc; subst. congruence.
    + rewrite C; clear C.
      split; [ split; [ discriminate | discriminate ] | split ].
      * split.
        -- intros (e & E & [I | [m I]]); inversion E; subst; discriminate.
        -- intros (_ & c & Rc & _). discriminate.
      * intros v. split; [ discriminate | ].
        intros (_ & c & Rc & _). discriminate.
  - split; [ split; reflexivity | split ].
    + split.
      * intros (e & E & I). inversion E; subst.
        exfalso. eapply notFound_not_invalid; eauto.
      * intros [Q _]. discriminate.
    + intros v. split; [ discriminate | intros [Q _]; discriminate ].
Qed.

(** *** The cleaning of the text *)

Lemma join_split (c : ascii) (s : string) : join c (split c s) = s.
Proof.
  induction s as [ | a s IH]; simpl; [ reflexivity | ].
  destruct (Ascii.eqb_spec a c) as [-> | N].
  - destruct (split c s) as [ | piece pieces] eqn:E.
    + simpl in IH. now subst.
    + simpl in *. f_equal. exact IH.
  - destruct (split c s) as [ | piece pieces] eqn:E.
    + simpl in IH. now subst.
    + destruct pieces as [ | p2 pieces]; simpl in *; f_equal; exact IH.
Qed.

Lemma split_head (c : ascii) (s : string) :
  exists piece pieces tail,
    split c s = piece :: pieces /\ s = (piece ++ tail)%string /\
    occurrences c piece = 0.
Proof.
  induction s as [ | a s (piece & pieces & tail & E & S & O)]; simpl.
  - exists EmptyString, [], EmptyString. auto.
  - destruct (Ascii.eqb_spec a c) as [-> | N].
    + exists EmptyString, (split c s), (String c s). auto.
    + rewrite E. exists (String a piece), pieces, tail. simpl.
      repeat split; [ congruence | ].
      destruct (Ascii.eqb_spec a c); [ contradiction | exact O ].
Qed.

Lemma hasDoubleSlash_prefix (p q : string) :
  hasDoubleSlash (p ++ q) = false -> hasDoubleSlash p = false.
Proof.
  induction p as [ | a p IH]; simpl; [ reflexivity | ].
  destruct p as [ | b p]; [ reflexivity | ].
  simpl in *. intros H. apply orb_false_iff in H. destruct H as [H1 H2].
  rewrite H1. simpl. apply IH. exact H2.
Qed.

Lemma hasDoubleSlash_tail (a : ascii) (s : string) :
  hasDoubleSlash (String a s) = false -> hasDoubleSlash s = false.
Proof.
  simpl. destruct s; [ reflexivity | ]. intros H.
  apply orb_false_iff in H. apply H.
Qed.

Lemma beforeComment_None (s : string) :
  hasDoubleSlash s = false -> beforeComment s = None.
Proof.
  induction s as [ | a s IH]; simpl; [ reflexivity | ].
  destruct s as [ | b s]; [ reflexivity | ].
  intros H. apply orb_false_iff in H. destruct H as [H1 H2].
  rewrite H1. now rewrite (IH H2).
Qed.

Lemma split_no_comment (c : ascii) (s : string) :
  hasDoubleSlash s = false ->
  Forall (fun line => hasDoubleSlash line = false) (split c s).
Proof.
  induction s as [ | a s IH]; intros H.
  - simpl. repeat constructor.
  - pose proof (IH (hasDoubleSlash_tail a s H)) as F.
    destruct (split_head c s) as (piece & pieces & tail & E & S & _).
    simpl. destruct (Ascii.eqb a c).
    + constructor; [ reflexivity | exact F ].
    + rewrite E in *. inversion F as [ | ? ? Hp Fp]. constructor; [ | exact Fp ].
      apply hasDoubleSlash_prefix with (q := tail).
      simpl. rewrite <- S. exact H.
Qed.

Lemma removeTrailingCommas_id (s : string) :
  hasTrailingComma s = false -> removeTrailingCommas s = s.
Proof.
  induction s as [ | a s IH]; simpl; [ reflexivity | ].
  intros H. apply orb_false_iff in H. destruct H as [H1 H2].
  rewrite H1. now rewrite IH.
Qed.

(** X7.  A text without two slashes in a row and without a comma before a
    closing bracket comes out of the cleaning as it went in. *)
Theorem cleanContent_keeps_plain_json (content : string) :
  hasDoubleSlash content = false ->
  hasTrailingComma content = false ->
  cleanContent content = content.
Proof.
  intros S C. unfold cleanContent.
  assert (M : map stripComment (split newline content) = split newline content).
  { rewrite <- (map_id (split newline content)) at 2.
    apply map_ext_in. intros line I.
    pose proof (split_no_comment newline content S) as F.
    rewrite Forall_forall in F. unfold stripComment.
    now rewrite (beforeComment_None line (F line I)). }
  rewrite M, join_split. now apply removeTrailingCommas_id.
Qed.

Lemma Deleted_refl (s : string) : Deleted s s.
Proof. induction s; constructor; auto. Qed.

Lemma Deleted_nil (s : string) : Deleted EmptyString s.
Proof. induction s; constructor; auto. Qed.

Lemma Deleted_trans (r t s : string) : Deleted t s -> Deleted r t -> Deleted r s.
Proof.
  intros H. revert r. induction H as [ | c t s H IH | c t s H IH]; intros r R.
  - exact R.
  - inversion R; subst.
    + constructor. now apply IH.
    + apply deleted_drop. now apply IH.
  - apply deleted_drop. now apply IH.
Qed.

Lemma Deleted_app (t1 s1 t2 s2 : string) :
  Deleted t1 s1 -> Deleted t2 s2 -> Deleted (t1 ++ t2) (s1 ++ s2).
Proof.
  intros H1 H2. induction H1; simpl; [ exact H2 | | ]; constructor; auto.
Qed.

Lemma Deleted_occurrences (c : ascii) (t s : string) :
  Deleted t s -> occurrences c t <= occurrences c s.
Proof. induction 1; simpl; lia. Qed.

Lemma beforeComment_prefix (line before : string) :
  beforeComment line = Some before ->
  exists tail, line = (before ++ tail)%string.
Proof.
  revert before. induction line as [ | a line IH]; simpl; intros before;
    [ discriminate | ].
  destruct line as [ | b line]; [ discriminate | ].
  destruct (Ascii.eqb a slash && Ascii.eqb b slash).
  - intros H. inversion H. eexists. reflexivity.
  - destruct (beforeComment (String b line)) as [rest | ]; simpl; [ | discriminate ].
    intros H. inversion H; subst. destruct (IH rest eq_refl) as [tail E].
    exists tail. simpl. now rewrite E.
Qed.

Lemma append_empty_r (s : string) : (s ++ "")%string = s.
Proof. induction s; simpl; congruence. Qed.

Lemma stripComment_prefix (line : string) :
  exists tail, line = (stripComment line ++ tail)%string.
Proof.
  unfold stripComment. destruct (beforeComment line) as [before | ] eqn:E.
  - destruct (Nat.even (quoteCount before)).
    + now apply beforeComment_prefix.
    + exists EmptyString. now rewrite append_empty_r.
  - exists EmptyString. now rewrite append_empty_r.
Qed.

Lemma stripComment_Deleted (line : string) : Deleted (stripComment line) line.
Proof.
  destruct (stripComment_prefix line) as [tail E]. rewrite E at 2.
  rewrite <- (append_empty_r (stripComment line)) at 1.
  apply Deleted_app; [ apply Deleted_refl | apply Deleted_nil ].
Qed.

Lemma join_Deleted (c : ascii) (lines' lines : list string) :
  Forall2 Deleted lines' lines -> Deleted (join c lines') (join c lines).
Proof.
  induction 1 as [ | t s ts ss H F IH]; simpl; [ constructor | ].
  inversion F; subst; [ exact H | ].
  apply Deleted_app; [ exact H | ]. constructor. exact IH.
Qed.

Lemma removeTrailingCommas_Deleted (s : string) :
  Deleted (removeTrailingCommas s) s.
Proof.
  induction s as [ | a s IH]; simpl; [ constructor | ].
  destruct (Ascii.eqb a "," && closesNext s); constructor; exact IH.
Qed.

Lemma removeTrailingCommas_occurrences (c : ascii) (s : string) :
  c <> ","%char ->
  occurrences c (removeTrailingCommas s) = occurrences c s.
Proof.
  intros N. induction s as [ | a s IH]; [ reflexivity | ].
  cbn [removeTrailingCommas occurrences].
  destruct (Ascii.eqb a "," && closesNext s) eqn:E.
  - apply andb_true_iff in E. destruct E as [E _].
    apply Ascii.eqb_eq in E. subst a.
    destruct (Ascii.eqb_spec ","%char c) as [Q | _]; [ congruence | ].
    rewrite IH. reflexivity.
  - cbn [occurrences]. now rewrite IH.
Qed.

Lemma occurrences_app (c : ascii) (s t : string) :
  occurrences c (s ++ t) = occurrences c s + occurrences c t.
Proof. induction s; simpl; lia. Qed.

Lemma split_lines (c : ascii) (s : string) :
  Forall (fun line => occurrences c line = 0) (split c s).
Proof.
  induction s as [ | a s IH]; simpl; [ repeat constructor | ].
  destruct (Ascii.eqb_spec a c) as [-> | N].
  - constructor; [ reflexivity | exact IH ].
  - destruct (split c s) as [ | piece pieces]; [ repeat constructor; simpl | ].
    + destruct (Ascii.eqb_spec a c); [ contradiction | reflexivity ].
    + inversion IH; subst. constructor; [ | assumption ]. simpl.
      destruct (Ascii.eqb_spec a c); [ contradiction | assumption ].
Qed.

Lemma join_occurrences (c : ascii) (lines : list string) :
  Forall (fun line => occurrences c line = 0) lines ->
  occurrences c (join c lines) = List.length lines - 1.
Proof.
  induction 1 as [ | line lines H F IH]; [ reflexivity | ].
  destruct lines as [ | l2 lines]; [ simpl; lia | ].
  change (join c (line :: l2 :: lines))
    with (line ++ String c (join c (l2 :: lines)))%string.
  rewrite occurrences_app, H. cbn [occurrences].
  rewrite Ascii.eqb_refl, IH. simpl. lia.
Qed.

(** X8.  The cleaning only leaves characters out, and never a line break:
    the cleaned text has the lines of the original, each with some of its
    characters. *)
Theorem cleanContent_only_deletes (content : string) :
  Deleted (cleanContent content) content /\
  occurrences newline (cleanContent content) = occurrences newline content.
Proof.
  unfold cleanContent.
  set (lines := split newline content).
  assert (D : Deleted (join newline (map stripComment lines)) content).
  { rewrite <- (join_split newline content) at 1. fold lines.
    apply join_Deleted. induction lines; simpl; constructor;
      [ apply stripComment_Deleted | assumption ]. }
  split.
  - eapply Deleted_trans; [ exact D | apply removeTrailingCommas_Deleted ].
  - rewrite removeTrailingCommas_occurrences by (unfold newline; discriminate).
    pose proof (split_lines newline content) as L. fold lines in L.
    rewrite join_occurrences.
    + rewrite length_map. rewrite <- (join_split newline content) at 1.
      fold lines. now rewrite join_occurrences.
    + apply Forall_forall. intros line I. apply in_map_iff in I.
      destruct I as (l0 & <- & I0). rewrite Forall_forall in L.
      pose proof (Deleted_occurrences newline _ _ (stripComment_Deleted l0)) as Le.
      rewrite (L l0 I0) in Le. lia.
Qed.

(** X9.  Besides the not-found and the invalid errors, [loadManifest]
    throws a [TypeError] exactly when the text parses to null, and the error
    of the file system, unchanged, exactly when the file exists and reading
    it fails; it throws nothing else. *)
Theorem loadManifest_other_errors (fs : FileSystem) (courseDir : string) :
  (loadManifest path_join JSON_parse fs courseDir = Throws TypeError <->
   existsSync fs (path_join courseDir "manifest.json") = true /\
   exists content manifest,
     readFileSync fs (path_join courseDir "manifest.json") = inl content /\
     JSON_parse (cleanContent content) = inl manifest /\
     isNullish manifest = true) /\
  (forall code,
      loadManifest path_join JSON_parse fs courseDir = Throws (SystemError code) <->
      existsSync fs (path_join courseDir "manifest.json") = true /\
      readFileSync fs (path_join courseDir "manifest.json") = inr code) /\
  (forall e,
      loadManifest path_join JSON_parse fs courseDir = Throws e ->
      isNotFound courseDir e \/ isInvalid e \/ e = TypeError \/
      exists code, e = SystemError code).
Proof.
  unfold loadManifest.
  pose proof (readManifest_cases fs (path_join courseDir "manifest.json")) as C.
  set (p := path_join courseDir "manifest.json") in *.
  destruct (existsSync fs p) eqn:X; simpl.
  - destruct (readFileSync fs p) as [content | code] eqn:R.
    + destruct (JSON_parse (cleanContent content)) as [manifest | message] eqn:P.
      * destruct (isNullish manifest) eqn:N;
          [ | destruct (truthy (get manifest "instances")) eqn:T ];
          rewrite C; clear C.
        -- split; [ | split ].
           ++ split; [ intros _ | reflexivity ].
              split; [ reflexivity | ]. exists content, manifest. auto.
           ++ intros code. split; [ discriminate | intros [_ Q]; discriminate ].
           ++ intros e E. inversion E; subst. auto.
        -- split; [ | split ].
           ++ split; [ discriminate | ].
              intros (_ & c & m & Rc & Pm & Nm). inversion Rc; subst. congruence.
           ++ intros code. split; [ discriminate | intros [_ Q]; discriminate ].
           ++ intros e E. discriminate.
        -- split; [ | split ].
           ++ split; [ discriminate | ].
              intros (_ & c & m & Rc & Pm & Nm). inversion Rc; subst. congruence.
           ++ intros code. split; [ discriminate | intros [_ Q]; discriminate ].
           ++ intros e E. inversion E; subst. right. left. left. reflexivity.
      * rewrite C; clear C. split; [ | split ].
        -- split; [ discriminate | ].
           intros (_ & c & m & Rc & Pm & _). inversion Rc; subst. congruence.
        -- intros code. split; [ discriminate | intros [_ Q]; discriminate ].
        -- intros e E. inversion E; subst. right. left. right. eauto.
    + rewrite C; clear C. split; [ | split ].
      * split; [ discriminate | ].
        intros (_ & c & m & Rc & _). discriminate.
      * intros code0. split.
        -- intros E. inversion E; subst. auto.
        -- intros [_ Q]. inversion Q; subst. reflexivity.
      * intros e E. inversion E; subst. right. right. right. eauto.
  - split; [ | split ].
    + split; [ discriminate | intros [Q _]; discriminate ].
    + intros code. split; [ discriminate | intros [Q _]; discriminate ].
    + intros e E. inversion E; subst. left. reflexivity.
Qed.


End LoaderFacts.

(** ** The manifest from loading to resolution *)

Section Pipeline.

Variable StringToNumber : string -> option Z.
Variable path_join : string -> string -> string.
Variable JSON_parse : string -> value + string.






End Pipeline.

(** ** Properties of updateManifestDate *)

Lemma append_assoc (a b c : string) : ((a ++ b) ++ c)%string = (a ++ (b ++ c))%string.
Proof. induction a; simpl; congruence. Qed.

Lemma afterPrefix_app (p s : string) : afterPrefix p (p ++ s) = Some s.
Proof. induction p as [ | a p IH]; simpl; [ | rewrite Ascii.eqb_refl ]; auto. Qed.

Lemma span_app (p : ascii -> bool) (w s : string) :
  allSatisfy p w = true -> headSatisfies p s = false ->
  span p (w ++ s) = (w, s).
Proof.
  intros W H. induction w as [ | a w IH]; simpl in *.
  - destruct s as [ | b s]; [ reflexivity | ]. simpl in *. now rewrite H.
  - apply andb_true_iff in W. destruct W as [Pa W]. rewrite Pa, (IH W).
    reflexivity.
Qed.

Lemma isQuote_not_space (a : ascii) : isQuote a = true -> isSpace a = false.
Proof.
  unfold isQuote. intros H. apply orb_true_iff in H.
  destruct H as [H | H]; apply Ascii.eqb_eq in H; subst; reflexivity.
Qed.

Lemma keyText_app (name : string) (q1 q2 : ascii) (ws1 ws2 : string) (q3 : ascii)
  (rest : string) :
  (keyText name q1 q2 ws1 ws2 q3 ++ rest)%string =
  String q1 (name ++ String q2 (ws1 ++ String ":"%char (ws2 ++ String q3 rest))).
Proof.
  unfold keyText. simpl. f_equal. rewrite append_assoc. simpl. f_equal. f_equal.
  rewrite append_assoc. simpl. f_equal. f_equal. now rewrite append_assoc.
Qed.

Lemma keyAt_keyText (name : string) (q1 q2 : ascii) (ws1 ws2 : string)
  (q3 : ascii) (rest : string) :
  isKeyText q1 q2 ws1 ws2 q3 = true ->
  keyAt name (keyText name q1 q2 ws1 ws2 q3 ++ rest) =
  Some (keyText name q1 q2 ws1 ws2 q3, rest).
Proof.
  unfold isKeyText. intros H.
  repeat (apply andb_true_iff in H; destruct H as [H ?]).
  rewrite keyText_app. unfold keyAt. rewrite H, afterPrefix_app.
  match goal with Q : isQuote q2 = true |- _ => rewrite Q end.
  rewrite span_app by (simpl; auto).
  rewrite Ascii.eqb_refl.
  rewrite span_app by (simpl; auto using isQuote_not_space).
  match goal with Q : isQuote q3 = true |- _ => rewrite Q end.
  reflexivity.
Qed.

Lemma search_unfold (matchAt : string -> option groups) (s : string) :
  search matchAt s =
  match matchAt s with
  | Some m => Some (EmptyString, m)
  | None =>
      match s with
      | EmptyString => None
      | String a rest =>
          match search matchAt rest with
          | Some (before, m) => Some (String a before, m)
          | None => None
          end
      end
  end.
Proof. destruct s; reflexivity. Qed.

Lemma search_found (matchAt : string -> option groups) (before s : string)
  (m : groups) :
  (forall b1 b2, before = (b1 ++ b2)%string -> b2 <> EmptyString ->
                 matchAt (b2 ++ s)%string = None) ->
  matchAt s = Some m ->
  search matchAt (before ++ s) = Some (before, m).
Proof.
  intros N M. induction before as [ | a before IH].
  - simpl. rewrite search_unfold, M. reflexivity.
  - rewrite search_unfold.
    rewrite (N EmptyString (String a before) eq_refl) by discriminate.
    cbn [append]. rewrite IH; [ reflexivity | ].
    intros b1 b2 E Ne. apply (N (String a b1) b2); [ | exact Ne ].
    simpl. now rewrite E.
Qed.

Lemma search_exists (matchAt : string -> option groups) (before s : string)
  (m : groups) :
  matchAt s = Some m -> exists r, search matchAt (before ++ s) = Some r.
Proof.
  intros M. induction before as [ | a before [r IH]].
  - simpl. rewrite search_unfold, M. eauto.
  - cbn [append]. rewrite search_unfold.
    destruct (matchAt (String a (before ++ s))); [ eauto | ].
    rewrite IH. destruct r. eauto.
Qed.

Lemma search_none (matchAt : string -> option groups) (s : string) :
  (forall s1 s2, s = (s1 ++ s2)%string -> matchAt s2 = None) ->
  search matchAt s = None.
Proof.
  induction s as [ | a s IH]; intros N.
  - rewrite search_unfold. now rewrite (N EmptyString EmptyString eq_refl).
  - rewrite search_unfold.
    rewrite (N EmptyString (String a s) eq_refl).
    rewrite IH; [ reflexivity | ].
    intros s1 s2 E. apply (N (String a s1) s2). simpl. now rewrite E.
Qed.

Lemma includesText_head (p s r : string) :
  afterPrefix p s = Some r -> includesText p s = true.
Proof. intros H. destruct s; simpl; now rewrite H. Qed.

Lemma includesText_tail (p s : string) (a : ascii) :
  includesText p s = true -> includesText p (String a s) = true.
Proof. intros H. simpl. rewrite H. now destruct (afterPrefix p (String a s)). Qed.

Lemma includesText_app_r (p a b : string) :
  includesText p b = true -> includesText p (a ++ b) = true.
Proof.
  intros H. induction a as [ | c a IH]; simpl; [ exact H | ].
  change (includesText p (String c (a ++ b)) = true).
  now apply includesText_tail.
Qed.

Lemma afterPrefix_app_l (p a b r : string) :
  afterPrefix p a = Some r -> afterPrefix p (a ++ b) = Some (r ++ b)%string.
Proof.
  revert a. induction p as [ | c p IH]; intros a; simpl.
  - intros H. now inversion H.
  - destruct a as [ | d a]; [ discriminate | ]. simpl.
    destruct (Ascii.eqb c d); [ apply IH | discriminate ].
Qed.

Lemma includesText_app_l (p a b : string) :
  includesText p a = true -> includesText p (a ++ b) = true.
Proof.
  induction a as [ | c a IH]; intros H.
  - simpl in H. destruct (afterPrefix p EmptyString) as [r | ] eqn:E;
      [ | discriminate ].
    eapply includesText_head. apply (afterPrefix_app_l p EmptyString b r E).
  - simpl in H. destruct (afterPrefix p (String c a)) as [r | ] eqn:E.
    + eapply includesText_head. apply (afterPrefix_app_l _ _ b _ E).
    + change (includesText p (String c (a ++ b)) = true).
      apply includesText_tail. now apply IH.
Qed.

Lemma includesText_app (p a b : string) :
  includesText p (a ++ b) = false ->
  includesText p a = false /\ includesText p b = false.
Proof.
  intros H. split.
  - destruct (includesText p a) eqn:E; [ | reflexivity ].
    now rewrite (includesText_app_l p a b E) in H.
  - destruct (includesText p b) eqn:E; [ | reflexivity ].
    now rewrite (includesText_app_r p a b E) in H.
Qed.

Lemma afterPrefix_straddle (name t K r : string) (k : ascii) :
  allSatisfy notQuote name = true -> isQuote k = true ->
  afterPrefix name (t ++ String k K) = Some r ->
  exists r', afterPrefix name t = Some r'.
Proof.
  revert t. induction name as [ | a name IH]; intros t N Q; simpl.
  - eauto.
  - simpl in N. apply andb_true_iff in N. destruct N as [Na N].
    destruct t as [ | b t]; simpl.
    + destruct (Ascii.eqb_spec a k) as [-> | _]; [ | discriminate ].
      unfold notQuote in Na. rewrite Q in Na. discriminate.
    + destruct (Ascii.eqb a b); [ now apply IH | discriminate ].
Qed.

Lemma keyAt_word (name s : string) (m : string * string) :
  keyAt name s = Some m ->
  exists q rest r, s = String q rest /\ isQuote q = true /\
                   afterPrefix name rest = Some r.
Proof.
  unfold keyAt. destruct s as [ | q rest]; [ discriminate | ].
  destruct (isQuote q) eqn:Q; [ | discriminate ].
  destruct (afterPrefix name rest) as [r | ] eqn:E; [ | discriminate ].
  intros _. exists q, rest, r. auto.
Qed.

(** No key [name] starts inside a text without the word [name], even when a
    quote follows the text. *)
Lemma keyAt_inside (name before b1 b2 K : string) (k : ascii) :
  allSatisfy notQuote name = true -> isQuote k = true ->
  includesText name before = false ->
  before = (b1 ++ b2)%string -> b2 <> EmptyString ->
  keyAt name (b2 ++ String k K) = None.
Proof.
  intros N Q I E Ne.
  destruct (keyAt name (b2 ++ String k K)) as [m | ] eqn:M; [ | reflexivity ].
  exfalso. apply keyAt_word in M. destruct M as (q & rest & r & S & _ & A).
  destruct b2 as [ | c b2]; [ congruence | ].
  simpl in S. injection S as Ec Er. subst q rest.
  destruct (afterPrefix_straddle _ _ _ _ _ N Q A) as [r' A'].
  apply includesText_head in A'.
  apply (includesText_tail _ _ c) in A'.
  apply (includesText_app_r _ b1) in A'. congruence.
Qed.

Lemma keyAt_absent (name s : string) :
  includesText name s = false -> keyAt name s = None.
Proof.
  intros I. destruct (keyAt name s) as [m | ] eqn:M; [ | reflexivity ].
  apply keyAt_word in M. destruct M as (q & rest & r & -> & _ & A).
  apply includesText_head in A. apply (includesText_tail _ _ q) in A. congruence.
Qed.


Section SubstitutionFacts.

Variables matched before after g1 g2 g3 : string.

Lemma substitute_plain (d t : string) :
  includes dollar d = false ->
  substitute matched before after [g1; g2; g3] (d ++ t) =
  (d ++ substitute matched before after [g1; g2; g3] t)%string.
Proof.
  induction d as [ | a d IH]; intros H; [ reflexivity | ].
  simpl in H. destruct (Ascii.eqb a dollar) eqn:E; [ discriminate | ].
  change (String a d ++ t)%string with (String a (d ++ t)).
  cbn [substitute]. rewrite E. cbn [append]. now rewrite IH.
Qed.

Lemma two_digits_beyond (d : ascii) :
  Nat.leb (10 * digitValue "1" + digitValue d) 3 = false.
Proof. apply Nat.leb_gt. change (digitValue "1") with 1. lia. Qed.

Lemma substitute_group1 (t : string) :
  substitute matched before after [g1; g2; g3] ("$1" ++ t) =
  (g1 ++ substitute matched before after [g1; g2; g3] t)%string.
Proof.
  change ("$1" ++ t)%string with (String "$" (String "1" t)).
  cbn [substitute].
  change (Ascii.eqb "$" dollar) with true.
  change (Ascii.eqb "1" dollar) with false.
  change (Ascii.eqb "1" "`") with false.
  change (Ascii.eqb "1" "&") with false.
  change (Ascii.eqb "1" apostrophe) with false.
  change (isDigit "1") with true. cbv iota.
  assert (C : capture [g1; g2; g3] (digitValue "1") "$1" = g1) by reflexivity.
  destruct t as [ | d2 t]; [ now rewrite C | ].
  rewrite two_digits_beyond, andb_false_r. now rewrite C.
Qed.

Lemma substitute_group3_end :
  substitute matched before after [g1; g2; g3] "$3" = g3.
Proof. simpl. unfold capture. simpl. apply append_empty_r. Qed.


End SubstitutionFacts.

Lemma updatedAt_key (s : string) :
  keyAt "updated" s = None -> updatedAt s = None /\ updatedFieldAt s = None.
Proof. intros H. unfold updatedAt, updatedFieldAt. now rewrite H. Qed.

Lemma gaAt_key (s : string) : keyAt "ga" s = None -> gaAt s = None.
Proof. intros H. unfold gaAt. now rewrite H. Qed.

Lemma isQuote_notQuote (a : ascii) : isQuote a = true -> notQuote a = false.
Proof. unfold notQuote. now intros ->. Qed.

Lemma updatedAt_field (q1 q2 q3 q4 : ascii) (ws1 ws2 value after : string) :
  isKeyText q1 q2 ws1 ws2 q3 = true ->
  allSatisfy notQuote value = true -> isQuote q4 = true ->
  updatedFieldAt (keyText "updated" q1 q2 ws1 ws2 q3 ++ value ++ String q4 after) =
    Some (keyText "updated" q1 q2 ws1 ws2 q3, value, String q4 EmptyString, after) /\
  updatedAt (keyText "updated" q1 q2 ws1 ws2 q3 ++ value ++ String q4 after) =
    match value with
    | EmptyString => None
    | String _ _ =>
        Some (keyText "updated" q1 q2 ws1 ws2 q3, value, String q4 EmptyString, after)
    end.
Proof.
  intros K V Q. unfold updatedFieldAt, updatedAt.
  rewrite (keyAt_keyText _ _ _ _ _ _ _ K).
  rewrite span_app by (simpl; auto using isQuote_notQuote).
  rewrite Q. split; [ reflexivity | ]. now destruct value.
Qed.

(** No field [updated] in a text without the word. *)
Lemma search_updated_absent (content : string) :
  includesText "updated" content = false ->
  search updatedFieldAt content = None /\ search updatedAt content = None.
Proof.
  intros I. split; apply search_none; intros s1 s2 E; subst content;
    apply includesText_app in I; destruct I as [_ I];
    now apply updatedAt_key, keyAt_absent.
Qed.

Lemma search_ga_absent (content : string) :
  includesText "ga" content = false -> search gaAt content = None.
Proof.
  intros I. apply search_none. intros s1 s2 E. subst content.
  apply includesText_app in I. destruct I as [_ I].
  now apply gaAt_key, keyAt_absent.
Qed.


Lemma updatedContent_replaces (before after value date : string)
  (q1 q2 q3 q4 : ascii) (ws1 ws2 : string) :
  includesText "updated" before = false ->
  isKeyText q1 q2 ws1 ws2 q3 = true ->
  value <> EmptyString -> allSatisfy notQuote value = true ->
  isQuote q4 = true ->
  includes dollar date = false ->
  updatedContent
    (before ++ keyText "updated" q1 q2 ws1 ws2 q3 ++ value ++ String q4 after)
    date =
  (before ++ keyText "updated" q1 q2 ws1 ws2 q3 ++ date ++ String q4 after)%string.
Proof.
  intros I K Ne V Q D.
  destruct (updatedAt_field q1 q2 q3 q4 ws1 ws2 value after K V Q) as [F A].
  assert (A' : updatedAt (keyText "updated" q1 q2 ws1 ws2 q3 ++ value ++ String q4 after) =
               Some (keyText "updated" q1 q2 ws1 ws2 q3, value, String q4 EmptyString, after)).
  { rewrite A. destruct value; [ congruence | reflexivity ]. }
  assert (S : search updatedAt
                (before ++ keyText "updated" q1 q2 ws1 ws2 q3 ++ value ++
                   String q4 after) =
              Some (before,
                    (keyText "updated" q1 q2 ws1 ws2 q3, value,
                     String q4 EmptyString, after))).
  { apply search_found; [ | exact A' ].
    intros b1 b2 E Nb. apply updatedAt_key.
    assert (Q1 : isQuote q1 = true).
    { unfold isKeyText in K. repeat (apply andb_true_iff in K; destruct K as [K ?]).
      exact K. }
    rewrite keyText_app. eapply keyAt_inside; eauto. }
  unfold updatedContent.
  destruct (search_exists updatedFieldAt before _ _ F) as [r ->].
  unfold replaceFirst. rewrite S.
  rewrite substitute_group1, (substitute_plain _ _ _ _ _ _ _ _ D),
    substitute_group3_end.
  f_equal. rewrite !append_assoc. reflexivity.
Qed.


Lemma afterPrefix_left (p1 p2 s r : string) :
  afterPrefix (p1 ++ p2) s = Some r -> exists r1, afterPrefix p1 s = Some r1.
Proof.
  revert s. induction p1 as [ | a p1 IH]; intros s; simpl; [ eauto | ].
  destruct s as [ | b s]; [ discriminate | ].
  destruct (Ascii.eqb a b); [ apply IH | discriminate ].
Qed.

Lemma metadataAt_word (s : string) (m : groups) :
  metadataAt s = Some m ->
  exists rest r, s = String quote rest /\ afterPrefix "metadata" rest = Some r.
Proof.
  unfold metadataAt.
  destruct (afterPrefix metadataKey s) as [s1 | ] eqn:E; [ | discriminate ].
  intros _. unfold metadataKey in E. destruct s as [ | c rest]; [ discriminate | ].
  cbn [afterPrefix] in E.
  destruct (Ascii.eqb_spec quote c) as [<- | _]; [ | discriminate ].
  apply afterPrefix_left in E. destruct E as [r E]. eauto.
Qed.

Lemma metadataAt_absent (s : string) :
  includesText "metadata" s = false -> metadataAt s = None.
Proof.
  intros I. destruct (metadataAt s) as [m | ] eqn:M; [ | reflexivity ].
  apply metadataAt_word in M. destruct M as (rest & r & -> & A).
  apply includesText_head in A. apply (includesText_tail _ _ quote) in A.
  congruence.
Qed.

Lemma search_metadata_absent (content : string) :
  includesText "metadata" content = false -> search metadataAt content = None.
Proof.
  intros I. apply search_none. intros s1 s2 E. subst content.
  apply includesText_app in I. destruct I as [_ I].
  now apply metadataAt_absent.
Qed.



(** X14.  A text that holds none of the words [updated], [ga] and
    [metadata] is written back as it is: no date is recorded. *)
Theorem text_without_fields_is_kept (content date : string) :
  includesText "updated" content = false ->
  includesText "ga" content = false ->
  includesText "metadata" content = false ->
  updatedContent content date = content.
Proof.
  intros U G M. unfold updatedContent.
  destruct (search_updated_absent _ U) as [-> _].
  now rewrite (search_ga_absent _ G), (search_metadata_absent _ M).
Qed.

Lemma search_cons_none (matchAt : string -> option groups) (c : ascii) (s : string) :
  matchAt (String c s) = None -> search matchAt s = None ->
  search matchAt (String c s) = None.
Proof. intros M S. rewrite search_unfold, M, S. reflexivity. Qed.

Lemma search_app_none (matchAt : string -> option groups) (a s : string) :
  (forall b1 b2, a = (b1 ++ b2)%string -> b2 <> EmptyString ->
                 matchAt (b2 ++ s)%string = None) ->
  search matchAt s = None ->
  search matchAt (a ++ s) = None.
Proof.
  intros N S. induction a as [ | c a IH]; [ exact S | ].
  cbn [append]. apply search_cons_none.
  - apply (N EmptyString (String c a) eq_refl). discriminate.
  - apply IH. intros b1 b2 E Ne. apply (N (String c b1) b2); [ | exact Ne ].
    simpl. now rewrite E.
Qed.

Lemma allSatisfy_app (p : ascii -> bool) (a b : string) :
  allSatisfy p (a ++ b) = allSatisfy p a && allSatisfy p b.
Proof.
  induction a as [ | c a IH]; simpl; [ reflexivity | ].
  now rewrite IH, andb_assoc.
Qed.

Lemma keyAt_head (name : string) (c : ascii) (s : string) :
  notQuote c = true -> keyAt name (String c s) = None.
Proof.
  unfold notQuote, keyAt. intros H. apply negb_true_iff in H. now rewrite H.
Qed.

(** No key starts inside a run of characters that are no quotes. *)
Lemma keyAt_run (name a b1 b2 s : string) :
  allSatisfy notQuote a = true -> a = (b1 ++ b2)%string -> b2 <> EmptyString ->
  keyAt name (b2 ++ s) = None.
Proof.
  intros A E Ne. subst a. rewrite allSatisfy_app in A.
  apply andb_true_iff in A. destruct A as [_ A].
  destruct b2 as [ | c b2]; [ congruence | ].
  simpl in A. apply andb_true_iff in A. destruct A as [A _].
  cbn [append]. now apply keyAt_head.
Qed.

Lemma spaces_notQuote (ws : string) :
  allSatisfy isSpace ws = true -> allSatisfy notQuote ws = true.
Proof.
  induction ws as [ | c ws IH]; simpl; [ reflexivity | ].
  intros H. apply andb_true_iff in H. destruct H as [S H].
  rewrite (IH H), andb_true_r. unfold notQuote.
  destruct (isQuote c) eqn:Q; [ | reflexivity ].
  apply isQuote_not_space in Q. congruence.
Qed.

Lemma afterPrefix_updated_head (c : ascii) (s : string) :
  Ascii.eqb "u" c = false -> afterPrefix "updated" (String c s) = None.
Proof. intros H. cbn [afterPrefix]. now rewrite H. Qed.

Lemma quote_not_u (q : ascii) : isQuote q = true -> Ascii.eqb "u" q = false.
Proof.
  unfold isQuote. intros H. apply orb_true_iff in H.
  destruct H as [H | H]; apply Ascii.eqb_eq in H; subst; reflexivity.
Qed.

Lemma space_not_u (c : ascii) : isSpace c = true -> Ascii.eqb "u" c = false.
Proof.
  intros H. destruct (Ascii.eqb_spec "u" c) as [<- | _]; [ discriminate | reflexivity ].
Qed.

Lemma keyAt_updated_after_quote (q : ascii) (s : string) :
  afterPrefix "updated" s = None -> keyAt "updated" (String q s) = None.
Proof.
  intros H. unfold keyAt. rewrite H. now destruct (isQuote q).
Qed.

(** X15.  A field [updated] whose value is empty passes the test for the
    field, but the replacement wants a value of one character at least: if
    the text holds the word nowhere else, it is written back as it is and
    the date is not recorded. *)
Theorem empty_updated_value_is_kept (before after date : string)
  (q1 q2 q3 q4 : ascii) (ws1 ws2 : string) :
  includesText "updated" before = false ->
  includesText "updated" after = false ->
  isKeyText q1 q2 ws1 ws2 q3 = true ->
  isQuote q4 = true ->
  updatedContent
    (before ++ keyText "updated" q1 q2 ws1 ws2 q3 ++ String q4 after) date =
  (before ++ keyText "updated" q1 q2 ws1 ws2 q3 ++ String q4 after)%string.
Proof.
  intros Ib Ia K Q.
  destruct (updatedAt_field q1 q2 q3 q4 ws1 ws2 EmptyString after K eq_refl Q)
    as [F A].
  cbn [append] in F, A.
  assert (Ks := K). unfold isKeyText in Ks.
  repeat (apply andb_true_iff in Ks; destruct Ks as [Ks ?]).
  assert (N : search updatedAt
                (before ++ keyText "updated" q1 q2 ws1 ws2 q3 ++ String q4 after) =
              None).
  { apply search_app_none.
    - intros b1 b2 E Ne. apply updatedAt_key. rewrite keyText_app.
      apply (keyAt_inside "updated" before b1 b2 _ q1 eq_refl Ks Ib E Ne).
    - rewrite search_unfold, A. rewrite keyText_app.
      change ("updated" ++ String q2 (ws1 ++ String ":" (ws2 ++ String q3 (String q4 after))))%string
        with ("updated" ++ (String q2 (ws1 ++ String ":" (ws2 ++ String q3 (String q4 after)))))%string.
      rewrite search_app_none; [ reflexivity | | ].
      + intros b1 b2 E Ne. apply updatedAt_key.
        eapply keyAt_run; [ | exact E | exact Ne ]. reflexivity.
      + apply search_cons_none.
        { apply updatedAt_key, keyAt_updated_after_quote.
          destruct ws1 as [ | w ws1]; cbn [append].
          - now apply afterPrefix_updated_head.
          - apply afterPrefix_updated_head, space_not_u.
            match goal with W : allSatisfy isSpace (String w ws1) = true |- _ =>
              simpl in W; apply andb_true_iff in W; apply W end. }
        apply search_app_none.
        { intros b1 b2 E Ne. apply updatedAt_key.
          eapply keyAt_run; [ | exact E | exact Ne ]. now apply spaces_notQuote. }
        apply search_cons_none.
        { apply updatedAt_key. now apply keyAt_head. }
        apply search_app_none.
        { intros b1 b2 E Ne. apply updatedAt_key.
          eapply keyAt_run; [ | exact E | exact Ne ]. now apply spaces_notQuote. }
        apply search_cons_none.
        { apply updatedAt_key, keyAt_updated_after_quote.
          now apply afterPrefix_updated_head, quote_not_u. }
        apply search_cons_none.
        { apply updatedAt_key, keyAt_updated_after_quote.
          destruct (afterPrefix "updated" after) as [r | ] eqn:E; [ | reflexivity ].
          apply includesText_head in E. congruence. }
        now apply search_updated_absent. }
  unfold updatedContent.
  destruct (search_exists updatedFieldAt before _ _ F) as [r R].
  rewrite R. unfold replaceFirst. now rewrite N.
Qed.

(** X11.  A field [updated] with a value gets the date as its value, and
    the rest of the text stays as it was: the text before the field, the
    quotes and the spacing of the field, and the text after it. *)
Theorem updated_value_is_replaced (before after value date : string)
  (q1 q2 q3 q4 : ascii) (ws1 ws2 : string) :
  includesText "updated" before = false ->
  isKeyText q1 q2 ws1 ws2 q3 = true ->
  value <> EmptyString -> allSatisfy notQuote value = true ->
  isQuote q4 = true ->
  includes dollar date = false ->
  updatedContent
    (before ++ keyText "updated" q1 q2 ws1 ws2 q3 ++ value ++ String q4 after)
    date =
  (before ++ keyText "updated" q1 q2 ws1 ws2 q3 ++ date ++ String q4 after)%string.
Proof. apply updatedContent_replaces. Qed.

(** X16.  Of two updates in a row the second decides: on a text with a
    field [updated] that has a value, updating with one date and then with
    another gives the text that the second date alone gives, for dates of
    one character at least without quotes or dollar signs. *)
Theorem later_update_wins (before after value date1 date2 : string)
  (q1 q2 q3 q4 : ascii) (ws1 ws2 : string) :
  includesText "updated" before = false ->
  isKeyText q1 q2 ws1 ws2 q3 = true ->
  value <> EmptyString -> allSatisfy notQuote value = true ->
  isQuote q4 = true ->
  date1 <> EmptyString -> allSatisfy notQuote date1 = true ->
  includes dollar date1 = false -> includes dollar date2 = false ->
  updatedContent
    (updatedContent
       (before ++ keyText "updated" q1 q2 ws1 ws2 q3 ++ value ++ String q4 after)
       date1)
    date2 =
  updatedContent
    (before ++ keyText "updated" q1 q2 ws1 ws2 q3 ++ value ++ String q4 after)
    date2.
Proof.
  intros I K Ne V Q Ne1 V1 D1 D2.
  rewrite (updatedContent_replaces before after value date1 q1 q2 q3 q4 ws1 ws2)
    by assumption.
  rewrite !updatedContent_replaces by assumption. reflexivity.
Qed.

Section UpdaterFacts.

Variable path_join : string -> string -> string.
Variable writeFileSync : FileSystem -> string -> string -> FileSystem + string.
Variable systemMessage : string -> string.

(** X17.  [updateManifestDate] throws the not-found error, as it is,
    exactly when [manifest.json] does not exist.  It returns exactly when
    the file is read and the write succeeds, and what it writes to the same
    path is the updated text for the custom date, or for the date of the
    call when no custom date or an empty one is given.  Every other error
    is a failure of the read or of the write, thrown as a new error with
    the message of the failure behind a fixed prefix. *)
Theorem updateManifestDate_outcomes (fs : FileSystem) (courseDir : string)
  (customDate : option string) (today : string) :
  (updateManifestDate path_join writeFileSync systemMessage fs courseDir
     customDate today = Throws (Error (notFoundMessage courseDir)) <->
   existsSync fs (path_join courseDir "manifest.json") = false) /\
  (forall fs',
      updateManifestDate path_join writeFileSync systemMessage fs courseDir
        customDate today = Returns fs' <->
      existsSync fs (path_join courseDir "manifest.json") = true /\
      exists content,
        readFileSync fs (path_join courseDir "manifest.json") = inl content /\
        writeFileSync fs (path_join courseDir "manifest.json")
          (updatedContent content
             (match customDate with
              | Some (String c date) => String c date
              | _ => today
              end)) = inl fs') /\
  (forall e,
      updateManifestDate path_join writeFileSync systemMessage fs courseDir
        customDate today = Throws e ->
      e = Error (notFoundMessage courseDir) \/
      exists code, e = Error (updateFailedMessage (systemMessage code))).
Proof.
  unfold updateManifestDate.
  set (p := path_join courseDir "manifest.json").
  assert (D : dateToUse customDate today =
              match customDate with
              | Some (String c date) => String c date
              | _ => today
              end).
  { unfold dateToUse. destruct customDate as [[ | c date] | ]; reflexivity. }
  rewrite D.
  destruct (existsSync fs p); simpl.
  - destruct (readFileSync fs p) as [content | code].
    + destruct (writeFileSync fs p _) as [fs1 | code] eqn:W.
      * split; [ split; discriminate | split ].
        -- intros fs'. split.
           ++ intros E. inversion E; subst. split; [ reflexivity | ].
              exists content. auto.
           ++ intros (_ & c & Rc & Wc). inversion Rc; subst. congruence.
        -- discriminate.
      * split; [ split; [ | discriminate ] | split ].
        -- intros E. inversion E.
        -- intros fs'. split; [ discriminate | ].
           intros (_ & c & Rc & Wc). inversion Rc; subst. congruence.
        -- intros e E. inversion E. eauto.
    + split; [ split; [ | discriminate ] | split ].
      * intros E. inversion E.
      * intros fs'. split; [ discriminate | ].
        intros (_ & c & Rc & _). discriminate.
      * intros e E. inversion E. eauto.
  - split; [ split; reflexivity | split ].
    + intros fs'. split; [ discriminate | intros [Q _]; discriminate ].
    + intros e E. inversion E. auto.
Qed.

End UpdaterFacts.

(** ** The properties at the sample data *)






Lemma datagen_last_write_wins_witness :
  Object_entries sampleInstances = Returns sampleEntries /\
  resolveInstances noNumericStrings sampleInstances sampleSpec = Returns sampleOut /\
  lookup "idx1" sampleOut = Some sampleIdx1 /\
  datagen sampleIdx1 =
    lastDatagen (matching noNumericStrings (instanceCountsOf sampleSpec)
                   sampleEntries "idx1" ++ globalBlocks sampleInstances) None /\
  (forall d, truthy (get sampleInstances "*") = true ->
             blockDatagen (get sampleInstances "*") = Some d ->
             datagen sampleIdx1 = Some d).
Proof.
  assert (OE : Object_entries sampleInstances = Returns sampleEntries)
    by reflexivity.
  assert (H : resolveInstances noNumericStrings sampleInstances sampleSpec =
              Returns sampleOut) by reflexivity.
  assert (L : lookup "idx1" sampleOut = Some sampleIdx1) by reflexivity.
  split; [ exact OE | split; [ exact H | split; [ exact L | ] ] ].
  exact (datagen_last_write_wins noNumericStrings sampleInstances sampleSpec
           sampleEntries sampleOut "idx1" sampleIdx1 OE H L).
Defined.

Lemma pattern_kinds_witness :
  resolvePattern noNumericStrings sampleCounts "idx2" exactBlock sampleRole =
    Returns sampleFirst /\
  ("idx2" = "*" -> sampleFirst = sampleRole) /\
  (isExact "idx2" = true ->
     keys sampleFirst =
       (if Map_has "idx2" sampleRole then keys sampleRole
        else keys sampleRole ++ ["idx2"]) /\
     forall id, id <> "idx2" -> lookup id sampleFirst = lookup id sampleRole).
Proof.
  assert (H : resolvePattern noNumericStrings sampleCounts "idx2" exactBlock
                sampleRole = Returns sampleFirst) by reflexivity.
  split; [ exact H | ].
  pose proof (pattern_kinds noNumericStrings sampleCounts "idx2" exactBlock
                sampleRole sampleFirst H) as K.
  split; [ exact (proj1 K) | exact (proj1 (proj2 K)) ].
Defined.

(** C6 fails at the key ["a*b"], which is not ["*"] and does not end in a
    star: it is expanded for the role ["ab"], and no instance ["a*b"] is
    created. *)
Lemma inner_star_key_is_expanded :
  "a*b" <> "*" /\ endsWith star "a*b" = false /\
  resolveInstances noNumericStrings innerStarInstances innerStarSpec =
    Returns [("ab1", newInstance)] /\
  ~ In "a*b" (keys [("ab1", newInstance)]).
Proof.
  split; [ discriminate | split; [ reflexivity | split; [ reflexivity | ] ] ].
  intros [E | []]. discriminate E.
Qed.

(** The two shapes at one list, in one pattern map. *)
Lemma legacy_apps_equivalence_example :
  resolveInstances noNumericStrings
    (VObj [("sh*", VObj [("apps", legacyApps ["./a"; "./b"])])])
    (VObj [("instances", VObj [("sh", VNum 2)])]) =
  resolveInstances noNumericStrings
    (VObj [("sh*", VObj [("apps", objectApps ["./a"; "./b"])])])
    (VObj [("instances", VObj [("sh", VNum 2)])]).
Proof.
  apply (proj2 (proj2 (legacy_apps_equivalence noNumericStrings ["./a"; "./b"]))).
  constructor; [ | constructor ].
  split; [ reflexivity | ]. exact (variant_apps ["./a"; "./b"] [] []).
Defined.

Lemma datagen_slot_kept_unless_stored_witness :
  applyConfig exactBlock (initial sampleRole "idx2") = Returns (initial sampleFirst "idx2") /\
  (storedDatagenShape (orElse (get exactBlock "datagens") (get exactBlock "datagen")) = false ->
   datagen (initial sampleFirst "idx2") = datagen (initial sampleRole "idx2")).
Proof.
  assert (H : applyConfig exactBlock (initial sampleRole "idx2") =
              Returns (initial sampleFirst "idx2")) by reflexivity.
  split; [ exact H | ].
  exact (proj1 (datagen_slot_kept_unless_stored exactBlock
                  (initial sampleRole "idx2") (initial sampleFirst "idx2") H)).
Defined.

(** C8 fails where the source of a datagen object is one string: the
    declaration is no sequence of strings and no object with such a source,
    and the slot, null before, holds the declaration after. *)
Lemma scalar_source_overwrites_datagen :
  declaredDatagenShape scalarDatagen = false /\
  resolveInstances noNumericStrings scalarDatagenInstances VUndefined =
    Returns [("uf1",
              {| apps := []; files := [];
                 datagen := Some {| source := VStr "./gen.py";
                                    destination := VUndefined |} |})] /\
  Some {| source := VStr "./gen.py"; destination := VUndefined |} <>
    datagen newInstance.
Proof.
  split; [ reflexivity | split; [ reflexivity | discriminate ] ].
Qed.

(** C9 fails at a manifest whose [instances] is 0: the text parses and the
    field is present, and the call throws the error of a missing field. *)
Lemma present_falsy_instances_rejected :
  existsSync sampleFs (sampleJoin "course" "manifest.json") = true /\
  readFileSync sampleFs (sampleJoin "course" "manifest.json") =
    inl zeroInstancesText /\
  sampleParse (cleanContent zeroInstancesText) = inl zeroInstancesManifest /\
  get zeroInstancesManifest "instances" = VNum 0 /\
  loadManifest sampleJoin sampleParse sampleFs "course" =
    Throws (Error missingInstancesMessage).
Proof. repeat split. Qed.

(** C10 fails at an array whose element is null: the element has no truthy
    source, and the call throws instead of passing it over. *)
Lemma null_group_throws :
  isString VNull = false /\
  truthy (get VNull "source") = false /\
  applyApps (VArr [VNull]) newInstance = Throws TypeError /\
  resolveInstances noNumericStrings nullGroupInstances VUndefined =
    Throws TypeError.
Proof. repeat split. Qed.

(** ** The cases of the repository's test suite *)

(** "should resolve wildcard patterns to specific instances" *)
Example test_wildcard_expansion :
  exists out,
    resolveInstances noNumericStrings
      (VObj [("idx*", VObj [("apps", VObj [("source", VArr [VStr "./apps/idx-base-config"]);
                                           ("destination", VStr "apps")])])])
      (VObj [("instances", VObj [("idx", VNum 4)])]) = Returns out /\
    keys out = ["idx1"; "idx2"; "idx3"; "idx4"] /\
    option_map apps (lookup "idx1" out) =
      Some [ {| source := VStr "./apps/idx-base-config"; destination := VStr "apps" |} ].
Proof. eexists. split; [ reflexivity | split; reflexivity ]. Qed.

(** "should handle old array format for backward compatibility" *)
Example test_old_array_format :
  exists out,
    resolveInstances noNumericStrings
      (VObj [("sh*", VObj [("apps", VArr [VStr "./apps/sh-base"])])])
      (VObj [("instances", VObj [("sh", VNum 2)])]) = Returns out /\
    keys out = ["sh1"; "sh2"] /\
    option_map apps (lookup "sh1" out) =
      Some [ {| source := VStr "./apps/sh-base"; destination := VStr "apps" |} ].
Proof. eexists. split; [ reflexivity | split; reflexivity ]. Qed.

(** "should merge wildcard and specific configurations" *)
Example test_merge_wildcard_and_specific :
  exists out,
    resolveInstances noNumericStrings
      (VObj [("idx*", VObj [("apps", VObj [("source", VArr [VStr "./apps/idx-base-config"]);
                                           ("destination", VStr "manager-apps")])]);
             ("idx4", VObj [("files", VObj [("source", VArr [VStr "./idx4/server.conf"]);
                                            ("destination", VStr "system/local")])])])
      (VObj [("instances", VObj [("idx", VNum 4)])]) = Returns out /\
    List.length out = 4 /\
    lookup "idx4" out =
      Some {| apps := [ {| source := VStr "./apps/idx-base-config";
                           destination := VStr "manager-apps" |} ];
              files := [ {| source := VStr "./idx4/server.conf";
                            destination := VStr "system/local" |} ];
              datagen := None |}.
Proof. eexists. split; [ reflexivity | split; reflexivity ]. Qed.

(** "should handle colocated roles with apps array format" *)
Example test_colocated_roles :
  exists out,
    resolveInstances noNumericStrings
      (VObj [("lm1",
              VObj [("apps",
                     VArr [VObj [("source", VArr [VStr "./apps/uf-base"]);
                                 ("destination", VStr "deployment-apps")];
                           VObj [("source", VArr [VStr "./apps/sh-base"]);
                                 ("destination", VStr "shcluster/apps")]])])])
      (VObj [("instances", VObj [])]) = Returns out /\
    keys out = ["lm1"] /\
    option_map apps (lookup "lm1" out) =
      Some [ {| source := VStr "./apps/uf-base"; destination := VStr "deployment-apps" |};
             {| source := VStr "./apps/sh-base"; destination := VStr "shcluster/apps" |} ].
Proof. eexists. split; [ reflexivity | split; reflexivity ]. Qed.

(** "should handle global wildcard to apply config to all instances" *)
Example test_global_wildcard :
  exists out,
    resolveInstances noNumericStrings
      (VObj [("*", VObj [("files", VObj [("source", VArr [VStr "./files/health.conf"]);
                                         ("destination", VStr "system/local")])]);
             ("idx*", VObj [("apps", VObj [("source", VArr [VStr "./apps/idx-base"]);
                                           ("destination", VStr "apps")])]);
             ("sh*", VObj [("apps", VObj [("source", VArr [VStr "./apps/sh-base"]);
                                          ("destination", VStr "apps")])])])
      (VObj [("instances", VObj [("idx", VNum 2); ("sh", VNum 1)])]) = Returns out /\
    keys out = ["idx1"; "idx2"; "sh1"] /\
    map (fun entry => files (snd entry)) out = [[healthFile]; [healthFile]; [healthFile]] /\
    option_map apps (lookup "sh1" out) =
      Some [ {| source := VStr "./apps/sh-base"; destination := VStr "apps" |} ].
Proof. eexists. split; [ reflexivity | split; [ | split ]; reflexivity ]. Qed.

(** A role name beyond nine instances, and a count given as [true]. *)
Example test_tenth_instance :
  numbered "idx" 9 2 = ["idx9"; "idx10"] /\
  iterations noNumericStrings (VBool true) = 1 /\
  iterations noNumericStrings (VNum (-3)) = 0.
Proof. repeat split. Qed.

(** A line comment is cut, one after an odd number of quotes is kept, and a
    comma before a closing bracket goes. *)
Example test_clean_content :
  stripComment "  [1, 2], // two" = "  [1, 2], " /\
  stripComment (String quote "http://x") = String quote "http://x" /\
  removeTrailingCommas "[1, 2, ]" = "[1, 2 ]".
Proof. repeat split. Qed.


(** ** The further properties at the sample data *)

Lemma result_keys_in_order_of_first_naming_witness :
  Object_entries sampleInstances = Returns sampleEntries /\
  resolveInstances noNumericStrings sampleInstances sampleSpec = Returns sampleOut /\
  keys sampleOut =
    firstOccurrences
      (named noNumericStrings (instanceCountsOf sampleSpec) sampleEntries) [] /\
  NoDup (keys sampleOut).
Proof.
  assert (OE : Object_entries sampleInstances = Returns sampleEntries)
    by reflexivity.
  assert (R : resolveInstances noNumericStrings sampleInstances sampleSpec =
              Returns sampleOut) by reflexivity.
  split; [ exact OE | split; [ exact R | ] ].
  exact (result_keys_in_order_of_first_naming noNumericStrings sampleInstances
           sampleSpec sampleEntries sampleOut OE R).
Defined.



Lemma global_entry_position_is_irrelevant_witness :
  lookup "*" [("idx*", roleBlock); ("idx2", exactBlock)] = None /\
  resolveInstances noNumericStrings sampleInstances sampleSpec =
  resolveInstances noNumericStrings
    (VObj [("*", globalBlock); ("idx*", roleBlock); ("idx2", exactBlock)])
    sampleSpec.
Proof.
  assert (L : lookup "*" [("idx*", roleBlock); ("idx2", exactBlock)] = None)
    by reflexivity.
  split; [ exact L | ].
  exact (global_entry_position_is_irrelevant noNumericStrings
           [("idx*", roleBlock); ("idx2", exactBlock)] [] globalBlock
           sampleSpec L).
Defined.

Lemma result_destinations_and_sources_truthy_witness :
  resolveInstances noNumericStrings sampleInstances sampleSpec = Returns sampleOut /\
  lookup "idx2" sampleOut = Some sampleIdx2 /\
  Forall (fun ref => truthy (destination ref) = true) (apps sampleIdx2) /\
  Forall (fun ref => truthy (destination ref) = true) (files sampleIdx2) /\
  (forall d, datagen sampleIdx2 = Some d -> truthy (source d) = true).
Proof.
  assert (R : resolveInstances noNumericStrings sampleInstances sampleSpec =
              Returns sampleOut) by reflexivity.
  assert (L : lookup "idx2" sampleOut = Some sampleIdx2) by reflexivity.
  split; [ exact R | split; [ exact L | ] ].
  exact (result_destinations_and_sources_truthy noNumericStrings
           sampleInstances sampleSpec sampleOut "idx2" sampleIdx2 R L).
Defined.


Lemma cleanContent_keeps_plain_json_witness :
  hasDoubleSlash oneInstanceText = false /\
  hasTrailingComma oneInstanceText = false /\
  cleanContent oneInstanceText = oneInstanceText.
Proof.
  assert (S : hasDoubleSlash oneInstanceText = false) by reflexivity.
  assert (C : hasTrailingComma oneInstanceText = false) by reflexivity.
  split; [ exact S | split; [ exact C | ] ].
  exact (cleanContent_keeps_plain_json oneInstanceText S C).
Defined.


Lemma updated_value_is_replaced_witness :
  updatedContent (datedText "2024-01-01") "2025-06-30" = datedText "2025-06-30".
Proof.
  apply (updated_value_is_replaced metadataOpening "}}" "2024-01-01"
           "2025-06-30" quote quote quote quote "" " ");
    first [ reflexivity | discriminate ].
Defined.



Lemma text_without_fields_is_kept_witness :
  updatedContent oneInstanceText "2025-06-30" = oneInstanceText.
Proof.
  apply (text_without_fields_is_kept oneInstanceText "2025-06-30");
    reflexivity.
Defined.

Lemma empty_updated_value_is_kept_witness :
  updatedContent emptyDateText "2025-06-30" = emptyDateText.
Proof.
  apply (empty_updated_value_is_kept "{" "}" "2025-06-30"
           quote quote quote quote "" " ");
    reflexivity.
Defined.

Lemma later_update_wins_witness :
  updatedContent (updatedContent (datedText "2024-01-01") "2025-06-30")
    "2026-02-01" =
  updatedContent (datedText "2024-01-01") "2026-02-01".
Proof.
  apply (later_update_wins metadataOpening "}}" "2024-01-01"
           "2025-06-30" "2026-02-01" quote quote quote quote "" " ");
    first [ reflexivity | discriminate ].
Defined.
